(** * Noms: the IPFS-backed chunk store and the Set collection

    A shallow embedding of three pieces of the repository:

    - package [ipfs] (the chunk store backed by an IPFS node): [Get],
      [GetMany], [Has], [HasMany], [Put], [Rebase], [Root], [Commit] and
      [resetRepoConfigPorts];
    - package [types], file [go/types/set.go]: [buildSetData], [NewSet],
      [NewStreamingSet], [readSetInput], [makeSetLeafChunkFn], [Len],
      [Empty], [First], [At], [Has], [Iter], [IterAll] and the three [Diff]
      entry points. The sequence chunker, the cursor and the diff algorithms
      these call are in other files of the package; they are modelled from
      the specification and marked as such;
    - the code generator for .noms files: [getOutFileName] and
      [kindToString].

    Go code that panics is modelled by the [Panic] outcome, a blocking
    channel operation that can never proceed in a sequential run by
    [Blocked]. The embedded code comes first, then the notions the statements
    use, then the facts. *)

From Stdlib Require Import ZArith NArith List String Ascii Strings.Byte Lia.
From Stdlib Require Import DecimalString.
From Stdlib Require Import Sorting.Sorted Sorting.Permutation.
From stdpp Require Import base option list gmap sets strings countable sorting.

Local Open Scope string_scope.

(** ** Outcomes of a Go call *)

Inductive outcome (A : Type) : Type :=
| Ret (a : A)
| Panic (msg : string)
| Blocked.

Arguments Ret {A} a.
Arguments Panic {A} msg.
Arguments Blocked {A}.

Definition obind {A B : Type} (m : outcome A) (k : A -> outcome B) : outcome B :=
  match m with
  | Ret a => k a
  | Panic msg => Panic msg
  | Blocked => Blocked
  end.

Notation "x <- m ; k" := (obind m (fun x => k))
  (at level 20, m at level 100, k at level 200).
Notation "' pat <- m ; k" := (obind m (fun x => match x with pat => k end))
  (at level 20, pat pattern, m at level 100, k at level 200).

Definition panics {A : Type} (m : outcome A) : bool :=
  match m with Panic _ => true | _ => false end.

(** [d.PanicIfTrue] and [d.PanicIfFalse] of package d. *)
Definition PanicIfTrue (b : bool) : outcome unit :=
  if b then Panic "Expected condition to be false" else Ret tt.

Definition PanicIfFalse (b : bool) : outcome unit :=
  if b then Ret tt else Panic "Expected condition to be true".

(** ** Bytes *)

Abbreviation byte := Byte.byte.
Abbreviation bytes := (list Byte.byte).

#[global] Instance byte_eq_dec : EqDecision byte.
Proof.
  intros a b. destruct (decide (Byte.to_N a = Byte.to_N b)) as [E | E].
  - left. apply (f_equal Byte.of_N) in E. rewrite !Byte.of_to_N in E. congruence.
  - right. congruence.
Defined.

#[global] Instance byte_countable : Countable byte :=
  inj_countable Byte.to_N Byte.of_N Byte.of_to_N.

(** * Package ipfs: the chunk store backed by an IPFS node *)

Module ipfs.

(** ** Hashes, chunks and CIDs *)

(** [hash.Hash] is a [[20]byte] array. *)
Abbreviation Hash := (list Byte.byte).

Definition ByteLen : nat := 20.

(** The zero value [hash.Hash{}]. *)
Definition zeroHash : Hash := repeat x00 ByteLen.

(** [copy(h[:], src)] into a zeroed [[20]byte]: the first 20 bytes of [src],
    padded with zeros when [src] is shorter. *)
Definition copyIntoHash (src : bytes) : Hash :=
  take ByteLen (src ++ repeat x00 ByteLen).

(** [chunks.Chunk]: a hash and the bytes stored under it. *)
Record Chunk : Type := NewChunkWithHash { Chunk_Hash : Hash; Chunk_Data : bytes }.

Definition IsEmpty (c : Chunk) : bool := bool_decide (length (Chunk_Data c) = 0).

(** The first 20 bytes of SHA-512 of the empty byte string: the hash of
    [chunks.EmptyChunk = NewChunk([]byte{})]. *)
Definition emptyHash : Hash :=
  [xcf; x83; xe1; x35; x7e; xef; xb8; xbd; xf1; x54;
   x28; x50; xd6; x6d; x80; x07; xd6; x20; xe4; x05].

Definition EmptyChunk : Chunk := NewChunkWithHash emptyHash [].

(** A decoded multihash (function code and digest) and a CID. *)
Record Multihash : Type := { mh_Code : N; mh_Digest : bytes }.
Record Cid : Type := NewCid { cid_Version : N; cid_Codec : N; cid_Hash : Multihash }.

Definition SHA2_512 : N := 0x13.
Definition Raw : N := 0x55.

#[global] Instance Chunk_eq_dec : EqDecision Chunk.
Proof. solve_decision. Defined.
#[global] Instance Multihash_eq_dec : EqDecision Multihash.
Proof. solve_decision. Defined.
#[global] Instance Cid_eq_dec : EqDecision Cid.
Proof. solve_decision. Defined.

#[global] Instance Cid_countable : Countable Cid :=
  inj_countable'
    (fun c => (cid_Version c, cid_Codec c, mh_Code (cid_Hash c), mh_Digest (cid_Hash c)))
    (fun t => match t with
              | (v, k, c, d) => NewCid v k {| mh_Code := c; mh_Digest := d |}
              end)
    (fun c => match c with NewCid v k (Build_Multihash c d) => eq_refl end).

(** [nomsHashToCID]: [mh.Encode(nh[:], mh.SHA2_512)] wrapped by
    [cid.NewCidV1(cid.Raw, mhb)]; encoding a 20-byte digest under a known
    code does not fail. *)
Definition nomsHashToCID (nh : Hash) : Cid :=
  NewCid 1 Raw {| mh_Code := SHA2_512; mh_Digest := nh |}.

(** [cidToNomsHash]: [mh.Decode] and [copy(h[:], dmh.Digest)]. *)
Definition cidToNomsHash (id : Cid) : Hash := copyIntoHash (mh_Digest (cid_Hash id)).

(** ** The IPFS node and the file system the store talks to *)

Inductive error : Type :=
| ErrNotFound
| ErrNotExist
| ErrIO (msg : string).

Definition errorText (e : error) : string :=
  match e with
  | ErrNotFound => "blockstore: block not found"
  | ErrNotExist => "file does not exist"
  | ErrIO msg => msg
  end.

(** [d.PanicIfError]. *)
Definition PanicIfError {A : Type} (r : A + error) : outcome A :=
  match r with
  | inl a => Ret a
  | inr e => Panic (errorText e)
  end.

(** [core.IpfsNode]: the local blockstore, the blocks other peers offer
    through the exchange, and the I/O fault (if any) every call on the node
    currently fails with. *)
Record IpfsNode : Type := {
  Blockstore : gmap Cid bytes;
  Exchange : gmap Cid bytes;
  ioErr : option string
}.

Definition withBlockstore (n : IpfsNode) (bs : gmap Cid bytes) : IpfsNode :=
  {| Blockstore := bs; Exchange := Exchange n; ioErr := ioErr n |}.

Definition Blockstore_Get (n : IpfsNode) (c : Cid) : bytes + error :=
  match ioErr n with
  | Some e => inr (ErrIO e)
  | None => match Blockstore n !! c with
            | Some b => inl b
            | None => inr ErrNotFound
            end
  end.

Definition Blockstore_Has (n : IpfsNode) (c : Cid) : bool + error :=
  match ioErr n with
  | Some e => inr (ErrIO e)
  | None => inl (bool_decide (is_Some (Blockstore n !! c)))
  end.

Definition Blockstore_Put (n : IpfsNode) (c : Cid) (b : bytes) : IpfsNode + error :=
  match ioErr n with
  | Some e => inr (ErrIO e)
  | None => inl (withBlockstore n (<[c := b]> (Blockstore n)))
  end.

(** [BlockService.GetBlock]: the local blockstore first, then the exchange. *)
Definition Blocks_GetBlock (n : IpfsNode) (c : Cid) : bytes + error :=
  match ioErr n with
  | Some e => inr (ErrIO e)
  | None => match Blockstore n !! c with
            | Some b => inl b
            | None => match Exchange n !! c with
                      | Some b => inl b
                      | None => inr ErrNotFound
                      end
            end
  end.

(** [BlockService.AddBlock]: stores the block and answers its CID. *)
Definition Blocks_AddBlock (n : IpfsNode) (c : Cid) (b : bytes) : (Cid * IpfsNode) + error :=
  match Blockstore_Put n c b with
  | inl n' => inl (c, n')
  | inr e => inr e
  end.

(** The directory holding the root files: path and contents, and the I/O
    fault (if any) reads and writes currently fail with. *)
Record Disk : Type := {
  files : gmap string string;
  diskErr : option string
}.

Definition ReadFile (d : Disk) (f : string) : string + error :=
  match diskErr d with
  | Some e => inr (ErrIO e)
  | None => match files d !! f with
            | Some s => inl s
            | None => inr ErrNotExist
            end
  end.

Definition WriteFile (d : Disk) (f : string) (s : string) : Disk + error :=
  match diskErr d with
  | Some e => inr (ErrIO e)
  | None => inl {| files := <[f := s]> (files d); diskErr := diskErr d |}
  end.

(** [path.Join] of a directory and a file name. *)
Definition path_Join (dir file : string) : string :=
  if decide (dir = "") then file else dir ++ "/" ++ file.

(** ** The store *)

Record chunkStore : Type := {
  root : option Hash;
  node : IpfsNode;
  name : string;
  rateLimit : nat;
  local : bool;
  test : bool
}.

(** Capacity of the [rateLimit] channel, [make(chan struct{}, 1024)]. *)
Definition rateLimitCap : nat := 1024.

Definition ChunkStoreFromIPFSNode (p : string) (isLocal : bool) (n : IpfsNode) : chunkStore :=
  {| root := None; node := n; name := p; rateLimit := 0; local := isLocal; test := false |}.

Definition withRoot (cs : chunkStore) (r : option Hash) : chunkStore :=
  {| root := r; node := node cs; name := name cs; rateLimit := rateLimit cs;
     local := local cs; test := test cs |}.

Definition withNode (cs : chunkStore) (n : IpfsNode) : chunkStore :=
  {| root := root cs; node := n; name := name cs; rateLimit := rateLimit cs;
     local := local cs; test := test cs |}.

Definition withGate (cs : chunkStore) (k : nat) (t : bool) : chunkStore :=
  {| root := root cs; node := node cs; name := name cs; rateLimit := k;
     local := local cs; test := t |}.

(** [cs.rateLimit <- struct{}{}; cs.test = true]: the send blocks while the
    channel is full. *)
Definition RateLimitAdd (cs : chunkStore) : outcome chunkStore :=
  if decide (rateLimit cs < rateLimitCap)
  then Ret (withGate cs (S (rateLimit cs)) true)
  else Blocked.

(** [cs.test = false; <-cs.rateLimit]: the receive blocks on an empty channel. *)
Definition RateLimitSub (cs : chunkStore) : outcome chunkStore :=
  match rateLimit cs with
  | O => Blocked
  | S k => Ret (withGate cs k false)
  end.

(** The tail shared by both branches of [Get]: a not-found error gives
    [chunks.EmptyChunk], any other error panics ([d.PanicIfError]), a block
    gives [chunks.NewChunkWithHash(h, b.RawData())]. *)
Definition chunkOfBlock (h : Hash) (r : bytes + error) : outcome Chunk :=
  match r with
  | inr ErrNotFound => Ret EmptyChunk
  | _ => b <- PanicIfError r; Ret (NewChunkWithHash h b)
  end.

Definition Get (cs : chunkStore) (h : Hash) : outcome (Chunk * chunkStore) :=
  cs1 <- RateLimitAdd cs;
  let c := nomsHashToCID h in
  chunk <- (if local cs1
           then chunkOfBlock h (Blockstore_Get (node cs1) c)
           else chunkOfBlock h (Blocks_GetBlock (node cs1) c));
  cs2 <- RateLimitSub cs1;
  Ret (chunk, cs2).

Definition Has (cs : chunkStore) (h : Hash) : outcome (bool * chunkStore) :=
  cs1 <- RateLimitAdd cs;
  let id := nomsHashToCID h in
  '(ok, cs2) <- (if local cs1
                then ok <- PanicIfError (Blockstore_Has (node cs1) id); Ret (ok, cs1)
                else '(c, cs2) <- Get cs1 h; Ret (negb (IsEmpty c), cs2));
  cs3 <- RateLimitSub cs2;
  Ret (ok, cs3).

Definition Put (cs : chunkStore) (c : Chunk) : outcome chunkStore :=
  cs1 <- RateLimitAdd cs;
  let cid := nomsHashToCID (Chunk_Hash c) in
  let b := Chunk_Data c in
  cs2 <- (if local cs1
         then n <- PanicIfError (Blockstore_Put (node cs1) cid b); Ret (withNode cs1 n)
         else '(cid2, n) <- PanicIfError (Blocks_AddBlock (node cs1) cid b);
              _ <- PanicIfFalse (bool_decide (cid = cid2));
              Ret (withNode cs1 n));
  RateLimitSub cs2.

Definition getLocalNameFile (cs : chunkStore) (isLocal : bool) : string :=
  if isLocal then path_Join (name cs) "noms-local" else path_Join (name cs) "noms".

(** *** HasMany *)

(** The loop of the local branch: [for h := range hashes { if !cs.Has(h) {
    misses[h] = struct{}{} } }], over the hashes in the order the range
    yields them. *)
Fixpoint HasMany_local (cs : chunkStore) (hs : list Hash) (misses : gset Hash)
  : outcome (gset Hash * chunkStore) :=
  match hs with
  | [] => Ret (misses, cs)
  | h :: hs' =>
      obind (Has cs h) (fun '(ok, cs1) =>
        HasMany_local cs1 hs' (if ok then misses else {[h]} ∪ misses))
  end.

(** The body of the goroutine the non-local branch starts for each hash. *)
Definition hasManyWorker (cs : chunkStore) (h : Hash) (misses : gset Hash)
  : outcome (gset Hash * chunkStore) :=
  cs1 <- RateLimitAdd cs;
  obind (Has cs1 h) (fun '(ok, cs2) =>
    let misses' := if ok then misses else {[h]} ∪ misses in
    cs3 <- RateLimitSub cs2;
    Ret (misses', cs3)).

(** The non-local branch as an interleaving of the calling goroutine and the
    workers it starts: the hashes the range still has to yield, the loop
    variable [h] the closures share, the number of goroutines started and not
    yet run, the [misses] map and the store. *)
Record hmState : Type := {
  hm_iter : list Hash;
  hm_h : option Hash;
  hm_pending : nat;
  hm_misses : gset Hash;
  hm_cs : chunkStore
}.

Inductive hmStep : hmState -> hmState -> Prop :=
| hm_spawn h rest x n m cs :
    hmStep {| hm_iter := h :: rest; hm_h := x; hm_pending := n; hm_misses := m; hm_cs := cs |}
           {| hm_iter := rest; hm_h := Some h; hm_pending := S n; hm_misses := m; hm_cs := cs |}
| hm_worker it h n m cs m' cs' :
    hasManyWorker cs h m = Ret (m', cs') ->
    hmStep {| hm_iter := it; hm_h := Some h; hm_pending := S n; hm_misses := m; hm_cs := cs |}
           {| hm_iter := it; hm_h := Some h; hm_pending := n; hm_misses := m'; hm_cs := cs' |}.

(** The caller returns [misses] as soon as its loop is over: nothing waits
    for the workers ([wg.Wait] is never called). *)
Definition HasMany_nonlocal (cs : chunkStore) (hashes : gset Hash) (misses : gset Hash) : Prop :=
  exists order st,
    Permutation order (elements hashes) /\
    rtc hmStep {| hm_iter := order; hm_h := None; hm_pending := 0;
                  hm_misses := ∅; hm_cs := cs |} st /\
    hm_iter st = [] /\ hm_misses st = misses.

(** [HasMany]: the values a call can return. *)
Definition HasMany (cs : chunkStore) (hashes : gset Hash) (misses : gset Hash) : Prop :=
  if local cs
  then exists order cs', Permutation order (elements hashes) /\
         HasMany_local cs order ∅ = Ret (misses, cs')
  else HasMany_nonlocal cs hashes misses.

(** *** GetMany *)

(** The loop of the local branch: [for _, cid := range cids], each CID read
    from the local blockstore, any error (that of a missing block included)
    raised by [d.PanicIfError], the chunk made of the block sent to
    [foundChunks]. The block [Blockstore.Get] answers carries the CID it was
    asked for. The result is the list of the chunks sent, in order. *)
Fixpoint GetMany_local (n : IpfsNode) (cids : list Cid) : outcome (list Chunk) :=
  match cids with
  | [] => Ret []
  | c :: rest =>
      b <- PanicIfError (Blockstore_Get n c);
      let chunk := NewChunkWithHash (cidToNomsHash c) b in
      found <- GetMany_local n rest;
      Ret (chunk :: found)
  end.

(** [GetMany] over the hashes in the order the range yields them. In the
    non-local branch the chunks are made of the blocks the channel of
    [Blocks.GetBlocks] delivers before it is closed, here [delivered]. *)
Definition GetMany (cs : chunkStore) (order : list Hash) (delivered : list (Cid * bytes))
  : outcome (list Chunk * chunkStore) :=
  cs1 <- RateLimitAdd cs;
  let cids := map nomsHashToCID order in
  found <- (if local cs1
           then GetMany_local (node cs1) cids
           else Ret (map (fun b => NewChunkWithHash (cidToNomsHash (fst b)) (snd b)) delivered));
  cs2 <- RateLimitSub cs1;
  Ret (found, cs2).

(** *** The root pointer *)

Section RootPointer.

(** [cid.String] and [cid.Decode] of the go-cid library. *)
Variable cid_String : Cid -> string.
Variable cid_Decode : string -> Cid + error.

Definition Rebase (cs : chunkStore) (d : Disk) : outcome chunkStore :=
  let f := getLocalNameFile cs (local cs) in
  sp <- match ReadFile d f with
       | inr ErrNotExist => Ret ""
       | r => PanicIfError r
       end;
  h <- (if decide (sp = "")
       then Ret zeroHash
       else cid <- PanicIfError (cid_Decode sp); Ret (cidToNomsHash cid));
  Ret (withRoot cs (Some h)).

Definition Root (cs : chunkStore) (d : Disk) : outcome (Hash * chunkStore) :=
  cs1 <- (if root cs is None then Rebase cs d else Ret cs);
  match root cs1 with
  | Some h => Ret (h, cs1)
  | None => Panic "nil pointer dereference"
  end.

(** [Commit]: the line printed to standard output in the first branch is
    not modelled. *)
Definition Commit (cs : chunkStore) (d : Disk) (current last : Hash)
  : outcome (bool * chunkStore * Disk) :=
  if bool_decide (root cs = Some current)
  then Ret (true, cs, d)
  else
    let cid := nomsHashToCID current in
    d1 <- (if local cs
          then PanicIfError (WriteFile d (getLocalNameFile cs true) (cid_String cid))
          else Ret d);
    d2 <- PanicIfError (WriteFile d1 (getLocalNameFile cs false) (cid_String cid));
    Ret (true, withRoot cs (Some current), d2).

(** The text of the root file this store reads its root from. *)
Definition persistedRoot (cs : chunkStore) (d : Disk) : option string :=
  files d !! getLocalNameFile cs (local cs).

End RootPointer.

(** *** The ports of the repo configuration *)

(** [strings.Replace(s, old, new, -1)] for a non-empty [old]: every
    occurrence of [old] that does not overlap an earlier one is replaced by
    [new], from left to right. [skip] counts the characters of the occurrence
    just replaced that are still to be dropped. *)
Fixpoint replaceFrom (old new : string) (skip : nat) (s : string) : string :=
  match s with
  | EmptyString => EmptyString
  | String c rest =>
      match skip with
      | S k => replaceFrom old new k rest
      | O =>
          if String.prefix old s
          then new ++ replaceFrom old new (String.length old - 1) rest
          else String c (replaceFrom old new 0 rest)
      end
  end.

Definition strings_Replace (s old new : string) : string := replaceFrom old new 0 s.

(** [fmt.Sprintf] of a prefix followed by the verb [%d]. *)
Definition Sprintf_d (pre : string) (n : Z) : string :=
  pre ++ NilZero.string_of_int (Z.to_int n).

(** [config.Addresses] and a [repo.Repo]: the configuration it holds and the
    fault (if any) [Config] and [SetConfig] currently fail with. *)
Record Addresses : Type := {
  API : string;
  Gateway : string;
  Swarm : list string
}.

Record Repo : Type := {
  repoConfig : Addresses;
  repoErr : option string
}.

Definition Repo_Config (r : Repo) : Addresses + error :=
  match repoErr r with
  | Some e => inr (ErrIO e)
  | None => inl (repoConfig r)
  end.

Definition Repo_SetConfig (r : Repo) (rc : Addresses) : Repo + error :=
  match repoErr r with
  | Some e => inr (ErrIO e)
  | None => inl {| repoConfig := rc; repoErr := repoErr r |}
  end.

(** [d.CheckError]: an error ends the run. *)
Definition CheckError {A : Type} (r : A + error) : outcome A := PanicIfError r.

Definition resetRepoConfigPorts (r : Repo) (nodeIdx : Z) : outcome Repo :=
  if decide (nodeIdx < 0 \/ nodeIdx > 9)%Z
  then Ret r
  else
    let apiPort := Sprintf_d "500" nodeIdx in
    let gatewayPort := Sprintf_d "808" nodeIdx in
    let swarmPort := Sprintf_d "400" nodeIdx in
    rc <- CheckError (Repo_Config r);
    let rc' := {| API := strings_Replace (API rc) "5001" apiPort;
                  Gateway := strings_Replace (Gateway rc) "8080" gatewayPort;
                  Swarm := map (fun addr => strings_Replace addr "4001" swarmPort) (Swarm rc) |} in
    CheckError (Repo_SetConfig r rc').

End ipfs.

(** * Package types: the Set collection (go/types/set.go) *)

Module types.

Local Open Scope list_scope.

(** ** Values *)

(** Modelled from the spec: the [Value] interface is declared outside
    set.go; the file uses its methods [Less] and [Equals] only (section 4.6:
    equality is decided by hash, the order is total across value kinds). A
    nil [Value] is [None] of [option V]. *)
Class Value (V : Type) : Type := {
  Less : V -> V -> bool;
  Equals : V -> V -> bool
}.

(** Modelled from the spec: what set.go relies on from the implementations
    of [Value] (section 4.6): [Equals] is equality of values and [Less] is a
    strict total order. *)
Class ValueLaws (V : Type) `{Value V} : Prop := {
  Equals_eq : forall v w : V, Equals v w = true <-> v = w;
  Less_irrefl : forall v : V, Less v v = false;
  Less_trans : forall u v w : V, Less u v = true -> Less v w = true -> Less u w = true;
  Less_total : forall v w : V, Less v w = false -> Less w v = false -> v = w
}.

(** Modelled from the spec: the content-defined boundary test of the
    chunker (section 4.4, step 2), a rolling hash over the encoded items; it
    is given the items of the buffer and answers whether a chunk ends after
    the last one. *)
Class Boundary (V : Type) : Type := {
  crossesBoundary : list V -> bool
}.

Section SetModel.

Context {V : Type} `{Value V} `{Boundary V}.

(** The [ValueReadWriter] a collection is built against; a nil interface is
    [None]. *)
Context {ValueReadWriter : Type}.

(** ** buildSetData *)

(** [sort.Stable(values)] of the Go library, with
    [ValueSlice.Less(i, j) = values[i].Less(values[j])]: insertion of a value
    after the values that are less than it, from the right end of the slice
    (a stable sort; for a strict total order every sort gives this result). *)
Fixpoint insertStable (v : V) (sorted : list V) : list V :=
  match sorted with
  | [] => [v]
  | w :: rest => if Less w v then w :: insertStable v rest else v :: w :: rest
  end.

Definition sort_Stable (values : list V) : list V := foldr insertStable [] values.

(** The loop of [buildSetData]: [last] is the value held back, [uniqueSorted]
    the slice built so far. *)
Fixpoint buildSetData_loop (last : V) (values : list V) (uniqueSorted : list V) : list V :=
  match values with
  | [] => uniqueSorted ++ [last]
  | v :: rest =>
      buildSetData_loop v rest
        (if negb (Equals v last) then uniqueSorted ++ [last] else uniqueSorted)
  end.

Definition buildSetData (values : list V) : list V :=
  match sort_Stable values with
  | [] => []
  | v0 :: rest => buildSetData_loop v0 rest []
  end.

(** ** Sequences *)

(** Modelled from the spec: the sequence tree of section 3, with one
    metadata level over the leaves. A leaf holds its items; a metadata entry
    holds the child, the summary key (the last item of the child; [None] is
    the zero [orderedKey]) and the number of items below it. *)
Record setLeafSequence : Type := newSetLeafSequence { leafData : list V }.

Record metaTuple : Type := newMetaTuple {
  mt_child : setLeafSequence;
  mt_key : option V;
  mt_numLeaves : N
}.

Inductive orderedSequence : Type :=
| leafSeq (l : setLeafSequence)
| metaSeq (tuples : list metaTuple).

Record Set_ : Type := newSet { seq : orderedSequence }.

(** Modelled from the spec: [seq.numLeaves()], the number of items of the
    sequence, a metadata node adding up the counts of its entries
    (section 4.2). [uint64] is [N]; nothing here can wrap around. *)
Definition numLeaves (s : orderedSequence) : N :=
  match s with
  | leafSeq l => N.of_nat (length (leafData l))
  | metaSeq ts => foldr (fun t n => (mt_numLeaves t + n)%N) 0%N ts
  end.

(** Modelled from the spec: the leaves of a sequence, left to right. *)
Definition leaves (s : orderedSequence) : list (list V) :=
  match s with
  | leafSeq l => [leafData l]
  | metaSeq ts => map (fun t => leafData (mt_child t)) ts
  end.

Definition Len (s : Set_) : N := numLeaves (seq s).

Definition Empty (s : Set_) : bool := (Len s =? 0)%N.

(** ** makeSetLeafChunkFn *)

(** [newOrderedKey(setData[len(setData)-1])] when the slice is not empty,
    the zero [orderedKey] otherwise. *)
Fixpoint lastKey (setData : list V) : option V :=
  match setData with
  | [] => None
  | [v] => Some v
  | _ :: rest => lastKey rest
  end.

(** The loop over [items]: [d.PanicIfFalse(lastValue == nil || lastValue.Less(v))]. *)
Fixpoint checkAscending (lastValue : option V) (items : list V) : outcome unit :=
  match items with
  | [] => Ret tt
  | v :: rest =>
      _ <- PanicIfFalse (match lastValue with None => true | Some l => Less l v end);
      checkAscending (Some v) rest
  end.

Definition makeSetLeafChunkFn (vrw : option ValueReadWriter) (level : N) (items : list V)
  : outcome (Set_ * option V * N) :=
  _ <- PanicIfFalse (level =? 0)%N;
  _ <- checkAscending None items;
  let setData := items in
  let set := newSet (leafSeq (newSetLeafSequence setData)) in
  let key := lastKey setData in
  Ret (set, key, N.of_nat (length items)).

(** ** The sequence chunker *)

(** Modelled from the spec: the sequence chunker of section 4.4. Items are
    appended to the leaf buffer [sc_current]; when the boundary test fires after
    an append the buffer is sealed into a leaf by the leaf chunk function and
    its (child, summary key, count) entry is appended to the parent level.
    [Done] seals the open buffer; no chunk at all gives a single empty leaf,
    one chunk is the root itself, several chunks get a metadata node. *)
Record sequenceChunker : Type := {
  sc_current : list V;
  sc_parent : list metaTuple
}.

(** Modelled from the spec: a chunker with nothing appended yet. *)
Definition newEmptySetSequenceChunker (vrw : option ValueReadWriter) : sequenceChunker :=
  {| sc_current := []; sc_parent := [] |}.

(** The leaf a leaf chunk function has wrapped into a collection. *)
Definition leafOf (s : Set_) : setLeafSequence :=
  match seq s with
  | leafSeq l => l
  | metaSeq _ => newSetLeafSequence []
  end.

(** Modelled from the spec: sealing the buffer (section 4.4, step 2). *)
Definition handleChunkBoundary (vrw : option ValueReadWriter) (ch : sequenceChunker)
  : outcome sequenceChunker :=
  '(set, key, n) <- makeSetLeafChunkFn vrw 0 (sc_current ch);
  Ret {| sc_current := []; sc_parent := sc_parent ch ++ [newMetaTuple (leafOf set) key n] |}.

(** Modelled from the spec: [ch.Append(v)] (section 4.4, steps 1 and 2). *)
Definition Append (vrw : option ValueReadWriter) (ch : sequenceChunker) (v : V)
  : outcome sequenceChunker :=
  let ch1 := {| sc_current := sc_current ch ++ [v]; sc_parent := sc_parent ch |} in
  if crossesBoundary (sc_current ch1) then handleChunkBoundary vrw ch1 else Ret ch1.

(** Modelled from the spec: [ch.Done()] (section 4.4, steps 3 and 4). *)
Definition Done (vrw : option ValueReadWriter) (ch : sequenceChunker)
  : outcome orderedSequence :=
  match sc_parent ch with
  | [] => '(set, _, _) <- makeSetLeafChunkFn vrw 0 (sc_current ch); Ret (seq set)
  | _ =>
      ch1 <- (match sc_current ch with
              | [] => Ret ch
              | _ => handleChunkBoundary vrw ch
              end);
      match sc_parent ch1 with
      | [t] => Ret (leafSeq (mt_child t))
      | ts => Ret (metaSeq ts)
      end
  end.

(** ** NewSet and NewStreamingSet *)

(** [for _, v := range data { ch.Append(v) }]. *)
Fixpoint appendAll (vrw : option ValueReadWriter) (ch : sequenceChunker) (data : list V)
  : outcome sequenceChunker :=
  match data with
  | [] => Ret ch
  | v :: rest => ch1 <- Append vrw ch v; appendAll vrw ch1 rest
  end.

Definition NewSet (vrw : option ValueReadWriter) (v : list V) : outcome Set_ :=
  let data := buildSetData v in
  let ch := newEmptySetSequenceChunker vrw in
  ch1 <- appendAll vrw ch data;
  s <- Done vrw ch1;
  Ret (newSet s).

(** [v == nil] for an interface value. *)
Definition isNil {A : Type} (v : option A) : bool :=
  match v with None => true | Some _ => false end.

(** The loop of [readSetInput] over the values received from [vChan] until
    it is closed. *)
Fixpoint readSetInput_loop (vrw : option ValueReadWriter) (ch : sequenceChunker)
    (lastV : option V) (vChan : list (option V)) : outcome sequenceChunker :=
  match vChan with
  | [] => Ret ch
  | v :: rest =>
      _ <- PanicIfTrue (isNil v);
      match v with
      | None => Panic "nil pointer dereference"
      | Some x =>
          _ <- (match lastV with
                | Some l => PanicIfFalse (Less l x)
                | None => Ret tt
                end);
          ch1 <- Append vrw ch x;
          readSetInput_loop vrw ch1 (Some x) rest
      end
  end.

(** [readSetInput]: the set sent to [outChan]. *)
Definition readSetInput (vrw : option ValueReadWriter) (vChan : list (option V))
  : outcome Set_ :=
  let ch := newEmptySetSequenceChunker vrw in
  ch1 <- readSetInput_loop vrw ch None vChan;
  s <- Done vrw ch1;
  Ret (newSet s).

Definition newStreamingSet (vrw : option ValueReadWriter) (vChan : list (option V))
    (readFunc : option ValueReadWriter -> list (option V) -> outcome Set_) : outcome Set_ :=
  _ <- PanicIfTrue (isNil vrw);
  readFunc vrw vChan.

(** [NewStreamingSet]: the set received from the returned channel once the
    input channel, which carried the values [vChan], has been closed. *)
Definition NewStreamingSet (vrw : option ValueReadWriter) (vChan : list (option V))
  : outcome Set_ :=
  newStreamingSet vrw vChan readSetInput.

(** ** Cursors *)

(** Modelled from the spec: the cursor of section 4.3, a leaf and an index
    into it; it is valid while the index is inside the leaf. *)
Record sequenceCursor : Type := {
  cur_leaf : list V;
  cur_idx : nat
}.

(** Modelled from the spec: [cur.valid()]. *)
Definition valid (cur : sequenceCursor) : bool :=
  bool_decide (cur_idx cur < length (cur_leaf cur)).

(** Modelled from the spec: [cur.current()]; an invalid cursor has no
    current item. *)
Definition current (cur : sequenceCursor) : outcome V :=
  match cur_leaf cur !! cur_idx cur with
  | Some v => Ret v
  | None => Panic "cursor is not valid"
  end.

(** Modelled from the spec: seek by index (section 4.3); the metadata
    entries are skipped by their item counts. *)
Fixpoint seekIndex (ts : list metaTuple) (idx : N) : sequenceCursor :=
  match ts with
  | [] => {| cur_leaf := []; cur_idx := 0 |}
  | t :: rest =>
      if (idx <? mt_numLeaves t)%N
      then {| cur_leaf := leafData (mt_child t); cur_idx := N.to_nat idx |}
      else seekIndex rest (idx - mt_numLeaves t)
  end.

(** Modelled from the spec: [newCursorAtIndex(seq, idx, false)]. *)
Definition newCursorAtIndex (s : orderedSequence) (idx : N) : sequenceCursor :=
  match s with
  | leafSeq l => {| cur_leaf := leafData l; cur_idx := N.to_nat idx |}
  | metaSeq ts => seekIndex ts idx
  end.

(** Modelled from the spec: seek by key (section 4.3), to the first item
    that is not less than [v], first within a leaf. *)
Fixpoint seekLeaf (items : list V) (v : V) : nat :=
  match items with
  | [] => 0
  | w :: rest => if Less w v then S (seekLeaf rest v) else 0
  end.

(** Modelled from the spec: seek by key across the metadata entries, which
    are skipped while their summary key is less than [v]. *)
Fixpoint seekTuples (ts : list metaTuple) (v : V) : sequenceCursor :=
  match ts with
  | [] => {| cur_leaf := []; cur_idx := 0 |}
  | t :: rest =>
      if match mt_key t with Some k => Less k v | None => true end
      then seekTuples rest v
      else {| cur_leaf := leafData (mt_child t);
              cur_idx := seekLeaf (leafData (mt_child t)) v |}
  end.

(** Modelled from the spec: [newCursorAtValue(seq, v, false, false, false)]. *)
Definition newCursorAtValue (s : orderedSequence) (v : V) : sequenceCursor :=
  match s with
  | leafSeq l => {| cur_leaf := leafData l; cur_idx := seekLeaf (leafData l) v |}
  | metaSeq ts => seekTuples ts v
  end.

(** Modelled from the spec: [cursor.iter] (section 4.3): the callback is run on every item from the cursor on,
    leaf after leaf, until it asks to stop. The state the Go closure updates
    is threaded through the callback. *)
Fixpoint iterItems {St : Type} (cb : V -> St -> bool * St) (items : list V) (st : St)
  : bool * St :=
  match items with
  | [] => (false, st)
  | v :: rest =>
      let '(stop, st1) := cb v st in
      if stop then (true, st1) else iterItems cb rest st1
  end.

(** Modelled from the spec: [cursor.iter] across the leaves. *)
Fixpoint iterLeaves {St : Type} (cb : V -> St -> bool * St) (ls : list (list V)) (st : St)
  : St :=
  match ls with
  | [] => st
  | l :: rest =>
      let '(stop, st1) := iterItems cb l st in
      if stop then st1 else iterLeaves cb rest st1
  end.

(** ** The collection interface *)

Definition At (s : Set_) (idx : N) : outcome V :=
  if (Len s <=? idx)%N
  then Panic "Out of bounds"
  else
    let cur := newCursorAtIndex (seq s) idx in
    current cur.

Definition Has (s : Set_) (v : V) : bool :=
  let cur := newCursorAtValue (seq s) v in
  valid cur && match cur_leaf cur !! cur_idx cur with
               | Some w => Equals w v
               | None => false
               end.

(** Modelled from the spec: [newCursorAt(seq, emptyKey, false, false, false)],
    the seek to the start (section 4.3): a cursor on the first item of the
    first leaf. *)
Definition newCursorAtStart (s : orderedSequence) : sequenceCursor :=
  {| cur_leaf := match leaves s with l :: _ => l | [] => [] end; cur_idx := 0 |}.

(** [First]: nil is [None]. *)
Definition First (s : Set_) : outcome (option V) :=
  let cur := newCursorAtStart (seq s) in
  if negb (valid cur)
  then Ret None
  else v <- current cur; Ret (Some v).

Definition Iter {St : Type} (s : Set_) (cb : V -> St -> bool * St) (st : St) : St :=
  iterLeaves cb (leaves (seq s)) st.

Definition IterAll {St : Type} (s : Set_) (cb : V -> St -> St) (st : St) : St :=
  iterLeaves (fun v st0 => (false, cb v st0)) (leaves (seq s)) st.

(** The values [IterAll] hands to its callback, in order. *)
Definition members (s : Set_) : list V :=
  IterAll s (fun v acc => acc ++ [v]) [].

(** ** Diff *)

Inductive DiffChangeType : Type :=
| DiffChangeAdded
| DiffChangeRemoved
| DiffChangeModified.

(** Modelled from the spec: [ValueChanged], the change record sent to the
    [changes] channel (section 4.5). An item of a set is its own key and has
    no value, so that the record holds the kind of change and the key. *)
Record ValueChanged : Type := newValueChanged {
  ChangeType : DiffChangeType;
  Key : V
}.

(** [seq.hash()], the content hash of a sequence, with its type. *)
Context {HashT : Type} `{EqDecision HashT}.
Variable hashOf : orderedSequence -> HashT.

Definition Set_Hash (s : Set_) : HashT := hashOf (seq s).

(** [s.Equals(other)]: [s.Hash() == other.Hash()]. *)
Definition Set_Equals (s other : Set_) : bool :=
  bool_decide (Set_Hash s = Set_Hash other).

(** Modelled from the spec: the items below a list of metadata entries,
    left to right. *)
Definition tupleItems (ts : list metaTuple) : list V :=
  concat (map (fun t => leafData (mt_child t)) ts).

(** Modelled from the spec: a sequence as the list of entries of its top level: a leaf root is the
    single entry a parent would hold for it, an empty leaf has none. *)
Definition topLevel (s : orderedSequence) : list metaTuple :=
  match s with
  | leafSeq l =>
      match leafData l with
      | [] => []
      | _ => [newMetaTuple l (lastKey (leafData l)) (N.of_nat (length (leafData l)))]
      end
  | metaSeq ts => ts
  end.

(** No item has been collected for the comparison in progress. *)
Definition noItems (p : list V) : bool :=
  match p with [] => true | _ => false end.

(** Modelled from the spec: the left-to-right diff of section 4.5. Both
    leaf-level cursors advance in lock-step in key order; the item with the
    smaller key is reported (removed when it is in the old tree, added when
    it is in the new one), items with the same key are aligned and, a set
    item being its own key, give no change. The records are listed in the
    order they are sent to [changes]; the close channel is never signalled. *)
Fixpoint diffItems (last : list V) : list V -> list ValueChanged :=
  match last with
  | [] => fun cur => map (newValueChanged DiffChangeAdded) cur
  | x :: last' =>
      fix inner (cur : list V) : list ValueChanged :=
        match cur with
        | [] => map (newValueChanged DiffChangeRemoved) (x :: last')
        | y :: cur' =>
            if Less x y then newValueChanged DiffChangeRemoved x :: diffItems last' cur
            else if Less y x then newValueChanged DiffChangeAdded y :: inner cur'
            else diffItems last' cur'
        end
  end.

(** Modelled from the spec: [orderedSequenceDiffLeftRight]. *)
Definition orderedSequenceDiffLeftRight (last current : orderedSequence) : list ValueChanged :=
  diffItems (concat (leaves last)) (concat (leaves current)).

(** Modelled from the spec: the order of two summary keys. *)
Definition keyLess (k1 k2 : option V) : bool :=
  match k1, k2 with
  | Some a, Some b => Less a b
  | _, _ => false
  end.

(** Modelled from the spec: the top-down diff of section 4.5. The two lists
    of children are split at the summary keys they share; the children
    between two shared keys form one pairwise comparison ([p1] and [p2] hold
    the items collected for the comparison in progress). A comparison of two
    single children with the same hash is skipped, any other is settled on
    the items. *)
Fixpoint diffRanges (p1 : list V) (ts1 : list metaTuple)
  : list V -> list metaTuple -> list ValueChanged :=
  match ts1 with
  | [] => fun p2 ts2 => diffItems p1 (p2 ++ tupleItems ts2)
  | t1 :: r1 =>
      fix inner (p2 : list V) (ts2 : list metaTuple) : list ValueChanged :=
        match ts2 with
        | [] => diffItems (p1 ++ tupleItems (t1 :: r1)) p2
        | t2 :: r2 =>
            if keyLess (mt_key t1) (mt_key t2)
            then diffRanges (p1 ++ leafData (mt_child t1)) r1 p2 ts2
            else if keyLess (mt_key t2) (mt_key t1)
            then inner (p2 ++ leafData (mt_child t2)) r2
            else
              (if noItems p1 && noItems p2 &&
                  bool_decide (hashOf (leafSeq (mt_child t1)) = hashOf (leafSeq (mt_child t2)))
               then []
               else diffItems (p1 ++ leafData (mt_child t1)) (p2 ++ leafData (mt_child t2)))
              ++ diffRanges [] r1 [] r2
        end
  end.

(** Modelled from the spec: [orderedSequenceDiffTopDown]. *)
Definition orderedSequenceDiffTopDown (last current : orderedSequence) : list ValueChanged :=
  diffRanges [] (topLevel last) [] (topLevel current).

(** Modelled from the spec: the hybrid diff of section 4.5: the steps of the
    top-down diff while the look-ahead budget lasts, then the left-to-right
    diff of everything not yet compared. *)
Fixpoint diffRangesBounded (budget : nat) (p1 : list V) (ts1 : list metaTuple)
    (p2 : list V) (ts2 : list metaTuple) : list ValueChanged :=
  match budget with
  | O => diffItems (p1 ++ tupleItems ts1) (p2 ++ tupleItems ts2)
  | S budget' =>
      match ts1, ts2 with
      | [], _ => diffItems p1 (p2 ++ tupleItems ts2)
      | _, [] => diffItems (p1 ++ tupleItems ts1) p2
      | t1 :: r1, t2 :: r2 =>
          if keyLess (mt_key t1) (mt_key t2)
          then diffRangesBounded budget' (p1 ++ leafData (mt_child t1)) r1 p2 ts2
          else if keyLess (mt_key t2) (mt_key t1)
          then diffRangesBounded budget' p1 ts1 (p2 ++ leafData (mt_child t2)) r2
          else
            (if noItems p1 && noItems p2 &&
                bool_decide (hashOf (leafSeq (mt_child t1)) = hashOf (leafSeq (mt_child t2)))
             then []
             else diffItems (p1 ++ leafData (mt_child t1)) (p2 ++ leafData (mt_child t2)))
            ++ diffRangesBounded budget' [] r1 [] r2
      end
  end.

(** Modelled from the spec: the look-ahead budget of the hybrid diff. *)
Variable lookAhead : nat.

(** Modelled from the spec: [orderedSequenceDiffBest]. *)
Definition orderedSequenceDiffBest (last current : orderedSequence) : list ValueChanged :=
  diffRangesBounded lookAhead [] (topLevel last) [] (topLevel current).

(** The three entry points of set.go: the records sent to [changes] when
    [closeChan] is never signalled. *)
Definition Diff (s last : Set_) : list ValueChanged :=
  if Set_Equals s last then [] else orderedSequenceDiffTopDown (seq last) (seq s).

Definition DiffHybrid (s last : Set_) : list ValueChanged :=
  if Set_Equals s last then [] else orderedSequenceDiffBest (seq last) (seq s).

Definition DiffLeftRight (s last : Set_) : list ValueChanged :=
  if Set_Equals s last then [] else orderedSequenceDiffLeftRight (seq last) (seq s).

End SetModel.

End types.

(** * The code generator for .noms files (package main) *)

Module codegen.

(** The extension of the input files, [const ext]. *)
Definition ext : string := ".noms".

(** [in[:len(in)-len(ext)] + ".go"]: the slice expression panics when the
    upper bound is negative. [substring 0 n s] is [s[:n]]. *)
Definition getOutFileName (in_ : string) : outcome string :=
  if (String.length in_ <? String.length ext)%nat
  then Panic "slice bounds out of range"
  else Ret (substring 0 (String.length in_ - String.length ext) in_ ++ ".go").

(** [types.NomsKind]: the kinds the file names, and any other value of the
    type. *)
Inductive NomsKind : Type :=
| BlobKind | BoolKind | Float32Kind | Float64Kind
| Int16Kind | Int32Kind | Int64Kind | Int8Kind
| StringKind
| UInt16Kind | UInt32Kind | UInt64Kind | UInt8Kind
| ValueKind | TypeRefKind
| ListKind | MapKind | RefKind | SetKind
| EnumKind | StructKind
| otherKind (k : N).

Definition kindToString (k : NomsKind) : outcome string :=
  match k with
  | BlobKind => Ret "Blob"
  | BoolKind => Ret "Bool"
  | Float32Kind => Ret "Float32"
  | Float64Kind => Ret "Float64"
  | Int16Kind => Ret "Int16"
  | Int32Kind => Ret "Int32"
  | Int64Kind => Ret "Int64"
  | Int8Kind => Ret "Int8"
  | StringKind => Ret "String"
  | UInt16Kind => Ret "UInt16"
  | UInt32Kind => Ret "UInt32"
  | UInt64Kind => Ret "UInt64"
  | UInt8Kind => Ret "UInt8"
  | ValueKind => Ret "Value"
  | TypeRefKind => Ret "TypeRef"
  | ListKind => Ret "List"
  | MapKind => Ret "Map"
  | RefKind => Ret "Ref"
  | SetKind => Ret "Set"
  | _ => Panic "unreachable"
  end.

End codegen.

(** * Notions used in the statements *)

(** ** The chunk store *)

Module ChunkStoreSpec.
Import ipfs.

(** What a store looks like after a call that took and gave back its token. *)
Definition released (cs : chunkStore) : chunkStore := withGate cs (rateLimit cs) false.

(** The block a [Get] on this store looks up. *)
Definition lookupBlock (cs : chunkStore) (c : Cid) : bytes + error :=
  if local cs then Blockstore_Get (node cs) c else Blocks_GetBlock (node cs) c.

(** [h] is in neither the local blockstore nor, for a non-local store, among
    the blocks the exchange can fetch. *)
Definition absent (cs : chunkStore) (h : Hash) : Prop :=
  Blockstore (node cs) !! nomsHashToCID h = None /\
  (local cs = false -> Exchange (node cs) !! nomsHashToCID h = None).

(** The store [Put cs c] leaves behind when the node is healthy. *)
Definition afterPut (cs : chunkStore) (c : Chunk) : chunkStore :=
  released (withNode cs (withBlockstore (node cs)
    (<[nomsHashToCID (Chunk_Hash c) := Chunk_Data c]> (Blockstore (node cs))))).

(** The hashes of [hs] the local blockstore does not hold. *)
Definition missing (cs : chunkStore) (hs : list Hash) : list Hash :=
  filter (fun h => Blockstore (node cs) !! nomsHashToCID h = None) hs.

(** The root files after [Commit] has written the text [s]: ["noms-local"]
    first when the store is local, then ["noms"]. *)
Definition committedFiles (cs : chunkStore) (d : Disk) (s : string) : gmap string string :=
  <[getLocalNameFile cs false := s]>
    (if local cs then <[getLocalNameFile cs true := s]> (files d) else files d).

(** What the workers of the non-local [HasMany] keep unchanged, and what
    they have found out about the hashes in [misses]: each was asked for,
    and no block with content is to be had for it. *)
Definition hmInv (hashes : gset Hash) (cs : chunkStore) (st : hmState) : Prop :=
  (forall h, h ∈ hm_iter st -> h ∈ hashes) /\
  (forall h, hm_h st = Some h -> h ∈ hashes) /\
  node (hm_cs st) = node cs /\
  local (hm_cs st) = false /\
  (forall h, h ∈ hm_misses st ->
     h ∈ hashes /\
     forall b, Blocks_GetBlock (node cs) (nomsHashToCID h) = inl b -> b = []).

(** *** A reference rendering of CIDs and concrete stores for the examples *)

Definition hexDigit (n : N) : ascii :=
  ascii_of_N (if (n <? 10)%N then 48 + n else 87 + n).

Definition hexByte (b : byte) : string :=
  let n := Byte.to_N b in
  String (hexDigit (n / 16)) (String (hexDigit (n mod 16)) EmptyString).

Definition hexN (n : N) : string :=
  String (hexDigit ((n / 16) mod 16)) (String (hexDigit (n mod 16)) EmptyString).

(** The multibase base16 text of a version 1 CID: ["f"], then version, codec,
    multihash code, digest length and digest in hexadecimal. *)
Definition cid_String_base16 (c : Cid) : string :=
  "f" ++ hexN (cid_Version c) ++ hexN (cid_Codec c) ++ hexN (mh_Code (cid_Hash c))
      ++ hexN (N.of_nat (length (mh_Digest (cid_Hash c))))
      ++ foldr (fun b s => hexByte b ++ s) "" (mh_Digest (cid_Hash c)).

Definition hashA : Hash := repeat x01 ByteLen.
Definition hashB : Hash := repeat x02 ByteLen.
Definition hashC : Hash := repeat x03 ByteLen.

Definition emptyNode : IpfsNode :=
  {| Blockstore := ∅; Exchange := ∅; ioErr := None |}.

Definition remoteStore : chunkStore := ChunkStoreFromIPFSNode "db" false emptyNode.
Definition localStore : chunkStore := ChunkStoreFromIPFSNode "db" true emptyNode.

(** A disk whose root file ["db/noms"] holds the CID of [hashA]. *)
Definition diskA : Disk :=
  {| files := {[ "db/noms" := cid_String_base16 (nomsHashToCID hashA) ]};
     diskErr := None |}.

(** A local store that holds the one-byte chunk [hashA]. *)
Definition chunkA : Chunk := NewChunkWithHash hashA [x2a].
Definition storeWithA : chunkStore := afterPut localStore chunkA.

(** A decoder that knows the text of the CID of [hashA]. *)
Definition cid_Decode_hashA (s : string) : Cid + error :=
  if decide (s = cid_String_base16 (nomsHashToCID hashA))
  then inl (nomsHashToCID hashA)
  else inr (ErrIO "invalid cid").

(** The position of the first occurrence of [old] in [s]. *)
Fixpoint firstOccurrence (old s : string) : option nat :=
  match s with
  | EmptyString => if String.prefix old s then Some 0 else None
  | String _ rest =>
      if String.prefix old s then Some 0 else S <$> firstOccurrence old rest
  end.

(** The address [addr] ends in the port text [port], which occurs nowhere
    before: [addr] is [pre] followed by [port]. *)
Definition portAddress (pre port addr : string) : Prop :=
  addr = pre ++ port /\ firstOccurrence port addr = Some (String.length pre).

(** The addresses of a freshly initialised repo. *)
Definition repoDefault : Repo :=
  {| repoConfig := {| API := "/ip4/127.0.0.1/tcp/5001";
                      Gateway := "/ip4/127.0.0.1/tcp/8080";
                      Swarm := ["/ip4/0.0.0.0/tcp/4001"; "/ip6/::/tcp/4001"] |};
     repoErr := None |}.

End ChunkStoreSpec.

(** ** Sets *)

Module SetSpec.
Import types.

Local Open Scope list_scope.

Section Statements.

Context {V : Type} `{Value V}.

#[local] Abbreviation metaTuple := (@types.metaTuple V).
#[local] Abbreviation orderedSequence := (@types.orderedSequence V).
#[local] Abbreviation sequenceChunker := (@types.sequenceChunker V).
#[local] Abbreviation sequenceCursor := (@types.sequenceCursor V).
#[local] Abbreviation ValueChanged := (@types.ValueChanged V).

(** The strict order of [Less] and the order "not greater". *)
Definition lt (a b : V) : Prop := Less a b = true.
Definition le (a b : V) : Prop := Less b a = false.

(** What the loop of [buildSetData] computes: of every run of equal
    neighbours only the last one is kept. *)
Fixpoint dedupAdjacent (l : list V) : list V :=
  match l with
  | [] => []
  | x :: rest =>
      match rest with
      | [] => [x]
      | y :: _ => if negb (Equals y x) then x :: dedupAdjacent rest else dedupAdjacent rest
      end
  end.

(** A metadata entry as the chunker writes it: a non-empty child, its last
    item as summary key and its length as count. *)
Definition wfTuple (t : metaTuple) : Prop :=
  leafData (mt_child t) <> [] /\
  mt_key t = lastKey (leafData (mt_child t)) /\
  mt_numLeaves t = N.of_nat (length (leafData (mt_child t))).

(** A well-formed sequence: its items are strictly increasing from left to
    right and its metadata entries are as the chunker writes them. *)
Definition wfSeq (s : orderedSequence) : Prop :=
  StronglySorted lt (concat (leaves s)) /\
  match s with
  | leafSeq _ => True
  | metaSeq ts => Forall wfTuple ts
  end.

(** The chunker after sealing its buffer. *)
Definition sealed (ch : sequenceChunker) : sequenceChunker :=
  {| sc_current := [];
     sc_parent := sc_parent ch ++
       [newMetaTuple (newSetLeafSequence (sc_current ch)) (lastKey (sc_current ch))
                     (N.of_nat (length (sc_current ch)))] |}.

(** The item a seek by key stops at equals the key. *)
Definition foundAt (cur : sequenceCursor) (v : V) : bool :=
  match cur_leaf cur !! cur_idx cur with
  | Some w => Equals w v
  | None => false
  end.

(** The values of a stream are all non-nil and each is greater than the one
    before it ([lastV] being the value before the first). *)
Fixpoint inOrder (lastV : option V) (vChan : list (option V)) : bool :=
  match vChan with
  | [] => true
  | None :: _ => false
  | Some x :: rest =>
      match lastV with Some l => Less l x | None => true end && inOrder (Some x) rest
  end.

(** Position [j] of the stream holds a nil value, or holds a value and the
    next position holds a value that is not greater. *)
Definition outOfOrderAt (vChan : list (option V)) (j : nat) : Prop :=
  vChan !! j = Some None \/
  exists a b, vChan !! j = Some (Some a) /\ vChan !! S j = Some (Some b) /\ Less a b = false.

(** What the left-to-right diff reports: the items of the old list that are
    not in the new one as removed, those of the new list that are not in the
    old one as added, and nothing else. *)
Definition isChange (l1 l2 : list V) (c : ValueChanged) : Prop :=
  (ChangeType c = DiffChangeRemoved /\ Key c ∈ l1 /\ Key c ∉ l2) \/
  (ChangeType c = DiffChangeAdded /\ Key c ∈ l2 /\ Key c ∉ l1).

Context {HashT : Type}.
Variable hashOf : orderedSequence -> HashT.

(** No two different children of the two trees have the same hash. *)
Definition noCollision (ts1 ts2 : list metaTuple) : Prop :=
  forall t1 t2, t1 ∈ ts1 -> t2 ∈ ts2 ->
    hashOf (leafSeq (mt_child t1)) = hashOf (leafSeq (mt_child t2)) ->
    mt_child t1 = mt_child t2.

End Statements.

(** *** Number values, for the examples *)

#[export] Instance Number_Value : Value Z := {| Less := Z.ltb; Equals := Z.eqb |}.

(** A boundary test for the examples: a chunk ends after every multiple of three. *)
#[export] Instance Number_Boundary : Boundary Z :=
  {| crossesBoundary := fun buffer =>
       match lastKey buffer with
       | Some z => (z mod 3 =? 0)%Z
       | None => false
       end |}.

(** A hash for the examples: the leaves themselves. *)
Definition leavesHash (s : orderedSequence (V := Z)) : list (list Z) := leaves s.

(** The sets {1,2,3,4,5} and {1,2,4,5,6} as [NewSet] builds them. *)
Definition setOld : Set_ (V := Z) :=
  newSet (metaSeq [newMetaTuple (newSetLeafSequence [1; 2; 3]%Z) (Some 3%Z) 3;
                   newMetaTuple (newSetLeafSequence [4; 5]%Z) (Some 5%Z) 2]).

Definition setNew : Set_ (V := Z) :=
  newSet (leafSeq (newSetLeafSequence [1; 2; 4; 5; 6]%Z)).

End SetSpec.

(** * Facts about the chunk store *)

Module ChunkStoreProofs.
Import ipfs ChunkStoreSpec.

Ltac osimpl :=
  unfold obind in *; simpl in *.

Example cid_String_hashA :
  cid_String_base16 (nomsHashToCID hashA)
  = "f015513140101010101010101010101010101010101010101".
Proof. reflexivity. Qed.

(** ** The admission gate *)

Lemma released_idemp cs : released (released cs) = released cs.
Proof. reflexivity. Qed.

Lemma RateLimitAdd_open cs :
  rateLimit cs < rateLimitCap ->
  RateLimitAdd cs = Ret (withGate cs (S (rateLimit cs)) true).
Proof. intros Hlt. unfold RateLimitAdd. by rewrite decide_True. Qed.

Lemma Get_unfold cs h :
  rateLimit cs < rateLimitCap ->
  Get cs h = obind (chunkOfBlock h (lookupBlock cs (nomsHashToCID h)))
                   (fun chunk => Ret (chunk, released cs)).
Proof.
  intros Hlt. unfold Get. rewrite RateLimitAdd_open by done. osimpl.
  unfold lookupBlock. destruct (local cs); reflexivity.
Qed.

Lemma Has_unfold_local cs h :
  rateLimit cs < rateLimitCap -> local cs = true ->
  Has cs h = obind (PanicIfError (Blockstore_Has (node cs) (nomsHashToCID h)))
                   (fun ok => Ret (ok, released cs)).
Proof.
  intros Hlt Hloc. unfold Has. rewrite RateLimitAdd_open by done. osimpl.
  rewrite Hloc. destruct (Blockstore_Has _ _) as [ok | e]; reflexivity.
Qed.

Lemma Has_unfold_remote cs h :
  S (rateLimit cs) < rateLimitCap -> local cs = false ->
  Has cs h = obind (chunkOfBlock h (lookupBlock cs (nomsHashToCID h)))
                   (fun chunk => Ret (negb (IsEmpty chunk), released cs)).
Proof.
  intros Hlt Hloc. unfold Has. rewrite RateLimitAdd_open by lia. osimpl.
  rewrite Hloc. rewrite Get_unfold by (simpl; lia).
  unfold lookupBlock. simpl. rewrite Hloc.
  destruct (chunkOfBlock _ _); reflexivity.
Qed.

Lemma Put_unfold cs c :
  rateLimit cs < rateLimitCap ->
  Put cs c =
    match ioErr (node cs) with
    | Some e => Panic e
    | None => Ret (released (withNode cs (withBlockstore (node cs)
                 (<[nomsHashToCID (Chunk_Hash c) := Chunk_Data c]> (Blockstore (node cs))))))
    end.
Proof.
  intros Hlt. unfold Put. rewrite RateLimitAdd_open by done. osimpl.
  unfold Blocks_AddBlock, Blockstore_Put.
  destruct (local cs), (ioErr (node cs)); simpl; try reflexivity.
  rewrite bool_decide_eq_true_2 by done. reflexivity.
Qed.

Lemma lookupBlock_absent cs h :
  absent cs h -> ioErr (node cs) = None ->
  lookupBlock cs (nomsHashToCID h) = inr ErrNotFound.
Proof.
  intros [Hbs Hex] Herr. unfold lookupBlock, Blockstore_Get, Blocks_GetBlock.
  rewrite Herr, Hbs. destruct (local cs); [done | by rewrite Hex].
Qed.

Lemma lookupBlock_stored cs c b :
  Blockstore (node cs) !! c = Some b -> ioErr (node cs) = None ->
  lookupBlock cs c = inl b.
Proof.
  intros Hbs Herr. unfold lookupBlock, Blockstore_Get, Blocks_GetBlock.
  rewrite Herr, Hbs. by destruct (local cs).
Qed.

Lemma lookupBlock_fault cs c e :
  ioErr (node cs) = Some e -> lookupBlock cs c = inr (ErrIO e).
Proof.
  intros Herr. unfold lookupBlock, Blockstore_Get, Blocks_GetBlock.
  rewrite Herr. by destruct (local cs).
Qed.

Lemma lookupBlock_panic cs h c msg :
  chunkOfBlock h (lookupBlock cs c) = Panic msg -> ioErr (node cs) = Some msg.
Proof.
  unfold lookupBlock, Blockstore_Get, Blocks_GetBlock, chunkOfBlock.
  destruct (ioErr (node cs)) as [e |]; simpl.
  - destruct (local cs); osimpl; congruence.
  - destruct (local cs), (Blockstore (node cs) !! c); osimpl; try congruence.
    destruct (Exchange (node cs) !! c); osimpl; congruence.
Qed.

(** ** Get and Has *)

(** C7: for a hash absent from the store, [Get] returns the empty-chunk
    sentinel [chunks.EmptyChunk] and does not panic; the only panic a [Get]
    of such a hash can raise is the I/O error of the node, which is not the
    not-found answer. *)
Theorem Get_absent_is_EmptyChunk (cs : chunkStore) (h : Hash) :
  absent cs h ->
  rateLimit cs < rateLimitCap ->
  (ioErr (node cs) = None -> Get cs h = Ret (EmptyChunk, released cs)) /\
  (forall msg, Get cs h = Panic msg -> ioErr (node cs) = Some msg) /\
  Get cs h <> Blocked.
Proof.
  intros Habs Hgate. rewrite Get_unfold by done. repeat split.
  - intros Herr. by rewrite lookupBlock_absent.
  - intros msg. destruct (chunkOfBlock h _) eqn:E; osimpl; intros Hp; try congruence.
    apply (lookupBlock_panic cs h (nomsHashToCID h)). congruence.
  - destruct (chunkOfBlock h _) eqn:E; osimpl; try congruence.
    unfold chunkOfBlock in E. destruct (lookupBlock _ _) as [b | [| |]]; osimpl; congruence.
Qed.

Lemma Get_absent_is_EmptyChunk_witness :
  absent remoteStore hashA /\
  rateLimit remoteStore < rateLimitCap /\
  Get remoteStore hashA = Ret (EmptyChunk, released remoteStore).
Proof.
  assert (Habs : absent remoteStore hashA) by (split; intros; reflexivity).
  assert (Hgate : rateLimit remoteStore < rateLimitCap)
    by (unfold rateLimitCap; simpl; lia).
  split; [exact Habs | split; [exact Hgate |]].
  exact (proj1 (Get_absent_is_EmptyChunk remoteStore hashA Habs Hgate) eq_refl).
Defined.

Lemma Has_absent cs h :
  absent cs h -> ioErr (node cs) = None -> S (rateLimit cs) < rateLimitCap ->
  Has cs h = Ret (false, released cs).
Proof.
  intros Habs Herr Hgate. destruct (local cs) eqn:Hloc.
  - rewrite Has_unfold_local by (done || lia).
    unfold Blockstore_Has. rewrite Herr. destruct Habs as [-> _]. reflexivity.
  - rewrite Has_unfold_remote by done. by rewrite lookupBlock_absent.
Qed.

Lemma Has_stored cs h b :
  Blockstore (node cs) !! nomsHashToCID h = Some b ->
  ioErr (node cs) = None -> S (rateLimit cs) < rateLimitCap ->
  Has cs h = Ret (if local cs then true else negb (bool_decide (length b = 0)), released cs).
Proof.
  intros Hbs Herr Hgate. destruct (local cs) eqn:Hloc.
  - rewrite Has_unfold_local by (done || lia).
    unfold Blockstore_Has. rewrite Herr, Hbs. reflexivity.
  - rewrite Has_unfold_remote by done. by rewrite (lookupBlock_stored cs _ b).
Qed.

(** ** Put *)

(** C6, as the code has it: after [Put(c)] on a healthy node, [Get(c.Hash())]
    returns a chunk with the bytes of [c]; [Has(c.Hash())] returns true in
    local mode, and in non-local mode (where [Has] is [Get] followed by
    [IsEmpty]) exactly when [c] has at least one byte; [Has] of a hash absent
    from the store returns false. *)
Theorem Put_Get_Has (cs : chunkStore) (c : Chunk) :
  ioErr (node cs) = None ->
  S (rateLimit cs) < rateLimitCap ->
  Put cs c = Ret (afterPut cs c) /\
  Get (afterPut cs c) (Chunk_Hash c)
    = Ret (NewChunkWithHash (Chunk_Hash c) (Chunk_Data c), afterPut cs c) /\
  Has (afterPut cs c) (Chunk_Hash c)
    = Ret (if local cs then true else negb (IsEmpty c), afterPut cs c) /\
  (forall h, absent cs h -> Has cs h = Ret (false, released cs)).
Proof.
  intros Herr Hgate.
  assert (Hbs : Blockstore (node (afterPut cs c)) !! nomsHashToCID (Chunk_Hash c)
                = Some (Chunk_Data c)) by (simpl; apply lookup_insert_eq).
  repeat split.
  - rewrite Put_unfold by lia. by rewrite Herr.
  - rewrite Get_unfold by (simpl; lia).
    by rewrite (lookupBlock_stored _ _ (Chunk_Data c)).
  - by rewrite (Has_stored _ _ (Chunk_Data c)).
  - intros h Habs. by apply Has_absent.
Qed.

Lemma Put_Get_Has_witness :
  Put localStore (NewChunkWithHash hashA [x2a]) = Ret (afterPut localStore (NewChunkWithHash hashA [x2a])) /\
  Has (afterPut localStore (NewChunkWithHash hashA [x2a])) hashA
    = Ret (true, afterPut localStore (NewChunkWithHash hashA [x2a])).
Proof.
  assert (Hgate : S (rateLimit localStore) < rateLimitCap)
    by (unfold rateLimitCap; simpl; lia).
  pose proof (Put_Get_Has localStore (NewChunkWithHash hashA [x2a]) eq_refl Hgate)
    as (HP & _ & HH & _).
  split; [exact HP | exact HH].
Defined.

(** C6, counterexample: on a non-local store, after [Put(chunks.EmptyChunk)]
    the call [Has(EmptyChunk.Hash())] returns false although the chunk was
    written and [Get] returns its (zero) bytes. *)
Lemma Has_false_after_Put_of_empty_chunk :
  Put remoteStore EmptyChunk = Ret (afterPut remoteStore EmptyChunk) /\
  Blockstore (node (afterPut remoteStore EmptyChunk)) !! nomsHashToCID emptyHash = Some [] /\
  Has (afterPut remoteStore EmptyChunk) (Chunk_Hash EmptyChunk)
    = Ret (false, afterPut remoteStore EmptyChunk).
Proof. repeat split; vm_compute; reflexivity. Qed.

(** ** HasMany *)

Lemma Has_local_healthy cs h :
  local cs = true -> ioErr (node cs) = None -> rateLimit cs < rateLimitCap ->
  Has cs h = Ret (bool_decide (is_Some (Blockstore (node cs) !! nomsHashToCID h)), released cs).
Proof.
  intros Hloc Herr Hgate. rewrite Has_unfold_local by done.
  unfold Blockstore_Has. by rewrite Herr.
Qed.

Lemma HasMany_local_run hs : forall cs misses,
  local cs = true -> ioErr (node cs) = None -> rateLimit cs < rateLimitCap ->
  exists cs',
    HasMany_local cs hs misses = Ret (list_to_set (missing cs hs) ∪ misses, cs') /\
    node cs' = node cs.
Proof.
  induction hs as [| h hs IH]; intros cs misses Hloc Herr Hgate.
  - exists cs. split; [| done]. simpl. by rewrite (left_id_L ∅ (∪)).
  - simpl. rewrite Has_local_healthy by done. simpl.
    destruct (IH (released cs)
                (if bool_decide (is_Some (Blockstore (node cs) !! nomsHashToCID h))
                 then misses else {[h]} ∪ misses) Hloc Herr Hgate) as (cs' & -> & Hnode).
    exists cs'. split; [| done]. f_equal. f_equal.
    unfold missing. rewrite filter_cons. simpl.
    destruct (Blockstore (node cs) !! nomsHashToCID h) as [b |] eqn:E.
    + rewrite bool_decide_eq_true_2 by eauto. rewrite decide_False by done. done.
    + rewrite bool_decide_eq_false_2 by (by intros [? ?]).
      rewrite decide_True by done. simpl.
      by rewrite (assoc_L (∪)), (comm_L (∪) _ {[h]}).
Qed.

(** In local mode [HasMany] returns exactly the hashes the store misses. *)
Lemma HasMany_local_exact (cs : chunkStore) (hashes misses : gset Hash) :
  local cs = true -> ioErr (node cs) = None -> rateLimit cs < rateLimitCap ->
  HasMany cs hashes misses <->
  misses = filter (fun h => Blockstore (node cs) !! nomsHashToCID h = None) hashes.
Proof.
  intros Hloc Herr Hgate. unfold HasMany. rewrite Hloc.
  assert (Hset : forall order, Permutation order (elements hashes) ->
            list_to_set (missing cs order) ∪ ∅
            = filter (fun h => Blockstore (node cs) !! nomsHashToCID h = None) hashes).
  { intros order Hperm. apply set_eq. intros h.
    rewrite elem_of_union, elem_of_list_to_set, elem_of_filter.
    unfold missing. rewrite list_elem_of_filter, Hperm, elem_of_elements.
    rewrite elem_of_empty. tauto. }
  split.
  - intros (order & cs' & Hperm & Hrun).
    destruct (HasMany_local_run order cs ∅ Hloc Herr Hgate) as (cs'' & Hrun' & _).
    rewrite Hrun in Hrun'. injection Hrun' as -> _. by apply Hset.
  - intros ->. exists (elements hashes).
    destruct (HasMany_local_run (elements hashes) cs ∅ Hloc Herr Hgate) as (cs' & Hrun & _).
    exists cs'. split; [done |]. rewrite Hrun. by rewrite Hset.
Qed.

Lemma spawn_all it : forall x n m cs,
  exists x', rtc hmStep
    {| hm_iter := it; hm_h := x; hm_pending := n; hm_misses := m; hm_cs := cs |}
    {| hm_iter := []; hm_h := x'; hm_pending := length it + n; hm_misses := m; hm_cs := cs |}.
Proof.
  induction it as [| h it IH]; intros x n m cs.
  - exists x. apply rtc_refl.
  - destruct (IH (Some h) (S n) m cs) as (x' & Hrun).
    exists x'. eapply rtc_l; [apply hm_spawn |].
    replace (length (h :: it) + n) with (length it + S n) by (simpl; lia). exact Hrun.
Qed.

(** In non-local mode the caller can return before any worker has run, and
    then returns the empty set whatever the store holds. *)
Lemma HasMany_nonlocal_empty (cs : chunkStore) (hashes : gset Hash) :
  local cs = false -> HasMany cs hashes ∅.
Proof.
  intros Hloc. unfold HasMany. rewrite Hloc.
  destruct (spawn_all (elements hashes) None 0 ∅ cs) as (x' & Hrun).
  eexists (elements hashes), _. split; [done |]. split; [exact Hrun |]. done.
Qed.

Lemma hasManyWorker_absent (cs : chunkStore) (h : Hash) (m : gset Hash) :
  absent cs h -> ioErr (node cs) = None -> S (S (rateLimit cs)) < rateLimitCap ->
  hasManyWorker cs h m = Ret ({[h]} ∪ m, released cs).
Proof.
  intros Habs Herr Hgate. unfold hasManyWorker.
  rewrite RateLimitAdd_open by lia. osimpl.
  rewrite Has_absent by (done || (simpl; lia)). reflexivity.
Qed.

(** C5, the failing input: on a non-local store that holds nothing,
    [HasMany({hashA})] can return the empty set although [Has(hashA)] is
    false, so that [hashA] is a miss; it returns [{hashA}] only when the
    worker happens to run before the caller returns. *)
Theorem HasMany_nonlocal_loses_misses :
  Has remoteStore hashA = Ret (false, released remoteStore) /\
  HasMany remoteStore {[hashA]} ∅ /\
  HasMany remoteStore {[hashA]} {[hashA]}.
Proof.
  split; [vm_compute; reflexivity |]. split.
  - by apply HasMany_nonlocal_empty.
  - unfold HasMany. simpl. exists [hashA].
    eexists {| hm_iter := []; hm_h := Some hashA; hm_pending := 0;
               hm_misses := {[hashA]}; hm_cs := _ |}.
    split; [by rewrite elements_singleton |]. split; [| done].
    eapply rtc_l; [apply hm_spawn |]. eapply rtc_l; [| apply rtc_refl].
    assert (Hw : hasManyWorker remoteStore hashA ∅
                 = Ret ({[hashA]} ∪ ∅, released remoteStore)).
    { apply hasManyWorker_absent; [by split | done | unfold rateLimitCap; simpl; lia]. }
    rewrite (right_id_L ∅ (∪)) in Hw. apply hm_worker. exact Hw.
Qed.

(** ** The root pointer *)

Lemma getLocalNameFile_distinct cs :
  getLocalNameFile cs true <> getLocalNameFile cs false.
Proof.
  unfold getLocalNameFile, path_Join. destruct (decide (name cs = "")).
  - discriminate.
  - intros E. apply (inj (String.app (name cs))) in E. discriminate.
Qed.

Lemma committedFiles_own cs d s :
  committedFiles cs d s !! getLocalNameFile cs (local cs) = Some s.
Proof.
  unfold committedFiles. destruct (local cs).
  - rewrite lookup_insert_ne by (apply not_eq_sym, getLocalNameFile_distinct).
    apply lookup_insert_eq.
  - apply lookup_insert_eq.
Qed.

Section CommitFacts.

Variable cid_String : Cid -> string.
Variable cid_Decode : string -> Cid + error.

Lemma Commit_cached cs d current last :
  root cs = Some current -> Commit cid_String cs d current last = Ret (true, cs, d).
Proof. intros Hr. unfold Commit. by rewrite bool_decide_eq_true_2. Qed.

Lemma Commit_writes cs d current last :
  root cs <> Some current ->
  Commit cid_String cs d current last =
    match diskErr d with
    | Some e => Panic e
    | None => Ret (true, withRoot cs (Some current),
                   {| files := committedFiles cs d (cid_String (nomsHashToCID current));
                      diskErr := None |})
    end.
Proof.
  intros Hr. unfold Commit, committedFiles, WriteFile.
  rewrite bool_decide_eq_false_2 by done.
  destruct (local cs), (diskErr d) as [e |] eqn:E; osimpl; rewrite ?E; reflexivity.
Qed.

(** C1, as the code has it: [Commit(new, old)] never reports a conflict. It
    does not look at [old]; unless a write of a root file fails (a panic with
    the I/O error) it returns true; when the cached root already is [new] it
    writes nothing, and otherwise it overwrites the root file(s) with the CID
    of [new] and caches [new], whatever root was persisted before. *)
Theorem Commit_never_conflicts (cs : chunkStore) (d : Disk) (new old : Hash) :
  (forall old', Commit cid_String cs d new old' = Commit cid_String cs d new old) /\
  match Commit cid_String cs d new old with
  | Ret (ok, cs', d') =>
      ok = true /\ root cs' = Some new /\
      (root cs = Some new -> cs' = cs /\ d' = d) /\
      (root cs <> Some new ->
         persistedRoot cs' d' = Some (cid_String (nomsHashToCID new)))
  | Panic msg => diskErr d = Some msg /\ root cs <> Some new
  | Blocked => False
  end.
Proof.
  split; [reflexivity |].
  destruct (decide (root cs = Some new)) as [Hr | Hr].
  - rewrite Commit_cached by done. tauto.
  - rewrite Commit_writes by done. destruct (diskErr d) as [e |] eqn:E; [done |].
    split; [done |]. split; [done |]. split.
    + intros Hr'. contradiction.
    + intros _. exact (committedFiles_own cs d _).
Qed.

Lemma Root_cached cs d h :
  root cs = Some h -> Root cid_Decode cs d = Ret (h, cs).
Proof. intros Hr. unfold Root. rewrite Hr. simpl. by rewrite Hr. Qed.

(** C4, as the code has it: [Commit(newRoot, expected)] with [newRoot] equal
    to [expected] returns true unless a write of a root file fails; the
    persisted root pointer is left unchanged when the cached root is loaded
    and equals [newRoot] (nothing is written) and when the root file already
    holds the CID of [newRoot] (the same text is written again); in every
    other state the root file is overwritten with the CID of [newRoot]. In
    all cases [Root] answers [newRoot] afterwards. *)
Theorem Commit_same_root (cs : chunkStore) (d : Disk) (newRoot : Hash) :
  match Commit cid_String cs d newRoot newRoot with
  | Ret (ok, cs', d') =>
      ok = true /\
      Root cid_Decode cs' d' = Ret (newRoot, cs') /\
      (root cs = Some newRoot -> d' = d) /\
      (persistedRoot cs d = Some (cid_String (nomsHashToCID newRoot)) ->
         persistedRoot cs' d' = persistedRoot cs d) /\
      (root cs <> Some newRoot ->
         files d' = committedFiles cs d (cid_String (nomsHashToCID newRoot)))
  | Panic msg => diskErr d = Some msg
  | Blocked => False
  end.
Proof.
  destruct (decide (root cs = Some newRoot)) as [Hr | Hr].
  - rewrite Commit_cached by done. split; [done |].
    split; [by apply Root_cached |]. tauto.
  - rewrite Commit_writes by done. destruct (diskErr d) as [e |] eqn:E; [done |].
    split; [done |]. split; [by apply Root_cached |]. split.
    + intros Hr'. contradiction.
    + split; [| done].
      intros Hp. rewrite Hp. exact (committedFiles_own cs d _).
Qed.

End CommitFacts.

(** C1, counterexample: the root file holds [hashA]; [Commit(hashB, hashC)]
    names neither as the expected root, yet it returns true and the root file
    now holds [hashB]. *)
Lemma Commit_overwrites_diverged_root :
  persistedRoot remoteStore diskA = Some (cid_String_base16 (nomsHashToCID hashA)) /\
  cid_String_base16 (nomsHashToCID hashA) <> cid_String_base16 (nomsHashToCID hashC) /\
  cid_String_base16 (nomsHashToCID hashA) <> cid_String_base16 (nomsHashToCID hashB) /\
  exists cs' d',
    Commit cid_String_base16 remoteStore diskA hashB hashC = Ret (true, cs', d') /\
    persistedRoot cs' d' = Some (cid_String_base16 (nomsHashToCID hashB)).
Proof.
  split; [reflexivity |]. split; [discriminate |]. split; [discriminate |].
  eexists _, _. split; reflexivity.
Qed.

(** C4, counterexample: the root is not loaded and the root file holds
    [hashA]; [Commit(hashB, hashB)] returns true and the root file, instead of
    being left as it was, now holds [hashB]. *)
Lemma Commit_same_root_overwrites_unloaded :
  root remoteStore = None /\
  persistedRoot remoteStore diskA = Some (cid_String_base16 (nomsHashToCID hashA)) /\
  cid_String_base16 (nomsHashToCID hashA) <> cid_String_base16 (nomsHashToCID hashB) /\
  exists cs' d',
    Commit cid_String_base16 remoteStore diskA hashB hashB = Ret (true, cs', d') /\
    persistedRoot cs' d' = Some (cid_String_base16 (nomsHashToCID hashB)).
Proof.
  split; [reflexivity |]. split; [reflexivity |]. split; [discriminate |].
  eexists _, _. split; reflexivity.
Qed.

End ChunkStoreProofs.

(** * Facts about sets *)

Module SetProofs.
Import types SetSpec.

Local Open Scope list_scope.

Section Facts.

Context {V : Type} `{ValueLaws V} `{Boundary V} {ValueReadWriter : Type}.

#[local] Abbreviation metaTuple := (@types.metaTuple V).
#[local] Abbreviation orderedSequence := (@types.orderedSequence V).
#[local] Abbreviation sequenceChunker := (@types.sequenceChunker V).
#[local] Abbreviation sequenceCursor := (@types.sequenceCursor V).
#[local] Abbreviation Set_ := (@types.Set_ V).

Lemma lt_irrefl a : ~ lt a a.
Proof. unfold lt. rewrite Less_irrefl. discriminate. Qed.

Lemma lt_trans a b c : lt a b -> lt b c -> lt a c.
Proof. apply Less_trans. Qed.

Lemma lt_asym a b : lt a b -> le a b.
Proof.
  unfold lt, le. intros Hab. destruct (Less b a) eqn:Hba; [| done].
  pose proof (Less_trans _ _ _ Hab Hba) as Haa. by rewrite Less_irrefl in Haa.
Qed.

Lemma le_neq_lt a b : le a b -> a <> b -> lt a b.
Proof.
  unfold lt, le. intros Hba Hne. destruct (Less a b) eqn:Hab; [done |].
  destruct Hne. by apply Less_total.
Qed.

Lemma not_lt_cases a b : Less a b = false -> a = b \/ lt b a.
Proof.
  intros Hab. destruct (Less b a) eqn:Hba; [by right | left; by apply Less_total].
Qed.

#[local] Instance lt_transitive : Transitive lt.
Proof. intros a b c. apply lt_trans. Qed.

(** ** sort.Stable *)

Lemma insertStable_perm v l : Permutation (insertStable v l) (v :: l).
Proof.
  induction l as [| w l IH]; simpl; [done |].
  destruct (Less w v); [| done].
  rewrite IH. apply perm_swap.
Qed.

Lemma sort_Stable_perm l : Permutation (sort_Stable l) l.
Proof.
  induction l as [| v l IH]; simpl; [done |].
  rewrite insertStable_perm. by constructor.
Qed.

Lemma insertStable_HdRel a v l :
  le a v -> HdRel le a l -> HdRel le a (insertStable v l).
Proof.
  intros Hav Hl. destruct l as [| w l]; simpl; [by constructor |].
  inversion_clear Hl. destruct (Less w v); by constructor.
Qed.

Lemma insertStable_sorted v l : Sorted le l -> Sorted le (insertStable v l).
Proof.
  induction 1 as [| w l Hs IH Hhd]; simpl; [by repeat constructor |].
  destruct (Less w v) eqn:Hwv.
  - constructor; [done |]. apply insertStable_HdRel; [by apply lt_asym | done].
  - constructor; [by constructor |]. by constructor.
Qed.

Lemma sort_Stable_sorted l : Sorted le (sort_Stable l).
Proof.
  induction l as [| v l IH]; simpl; [constructor | by apply insertStable_sorted].
Qed.

(** ** buildSetData *)

Lemma buildSetData_loop_eq values : forall last uniqueSorted,
  buildSetData_loop last values uniqueSorted = uniqueSorted ++ dedupAdjacent (last :: values).
Proof.
  induction values as [| v rest IH]; intros last acc; [done |].
  cbn [buildSetData_loop]. rewrite IH.
  change (dedupAdjacent (last :: v :: rest))
    with (if negb (Equals v last) then last :: dedupAdjacent (v :: rest)
          else dedupAdjacent (v :: rest)).
  destruct (negb (Equals v last)); [| done].
  by rewrite <- app_assoc.
Qed.

Lemma buildSetData_eq values : buildSetData values = dedupAdjacent (sort_Stable values).
Proof.
  unfold buildSetData. destruct (sort_Stable values) as [| v0 rest]; [done |].
  by rewrite buildSetData_loop_eq.
Qed.

Lemma Equals_false v w : Equals v w = false <-> v <> w.
Proof.
  rewrite <- Equals_eq. destruct (Equals v w); split; intros ?; congruence.
Qed.

Lemma dedupAdjacent_elem l v : v ∈ dedupAdjacent l <-> v ∈ l.
Proof.
  induction l as [| x rest IH]; [done |].
  destruct rest as [| y rest']; [done |].
  change (dedupAdjacent (x :: y :: rest'))
    with (if negb (Equals y x) then x :: dedupAdjacent (y :: rest')
          else dedupAdjacent (y :: rest')).
  destruct (Equals y x) eqn:E; cbn [negb].
  - apply Equals_eq in E as ->. rewrite IH. rewrite !elem_of_cons. tauto.
  - rewrite (elem_of_cons (dedupAdjacent _)), IH. rewrite !elem_of_cons. tauto.
Qed.

Lemma dedupAdjacent_head x rest : exists tl, dedupAdjacent (x :: rest) = x :: tl.
Proof.
  revert x. induction rest as [| y rest IH]; intros x; [by exists [] |].
  change (dedupAdjacent (x :: y :: rest))
    with (if negb (Equals y x) then x :: dedupAdjacent (y :: rest)
          else dedupAdjacent (y :: rest)).
  destruct (Equals y x) eqn:E; cbn [negb]; [| by eexists].
  apply Equals_eq in E as ->. apply IH.
Qed.

Lemma dedupAdjacent_sorted l : Sorted le l -> Sorted lt (dedupAdjacent l).
Proof.
  induction 1 as [| x rest Hs IH Hhd]; [constructor |].
  destruct rest as [| y rest']; [by repeat constructor |].
  change (dedupAdjacent (x :: y :: rest'))
    with (if negb (Equals y x) then x :: dedupAdjacent (y :: rest')
          else dedupAdjacent (y :: rest')).
  destruct (Equals y x) eqn:E; cbn [negb]; [done |].
  constructor; [done |].
  destruct (dedupAdjacent_head y rest') as (tl & ->). constructor.
  inversion_clear Hhd. apply le_neq_lt; [done |].
  apply Equals_false in E. congruence.
Qed.

Lemma sorted_lt_strongly l : Sorted lt l -> StronglySorted lt l.
Proof. apply Sorted_StronglySorted. intros a b c. apply lt_trans. Qed.

Lemma strongly_lt_NoDup l : StronglySorted lt l -> NoDup l.
Proof.
  induction 1 as [| x l Hs IH Hall]; constructor; [| done].
  intros Hin. rewrite list.Forall_forall in Hall.
  by apply (lt_irrefl x), Hall.
Qed.

(** [buildSetData] keeps exactly the values it is given and returns them in
    strictly increasing order. *)
Lemma buildSetData_spec values :
  (forall v, v ∈ buildSetData values <-> v ∈ values) /\
  StronglySorted lt (buildSetData values).
Proof.
  rewrite buildSetData_eq. split.
  - intros v. rewrite dedupAdjacent_elem. by rewrite sort_Stable_perm.
  - apply sorted_lt_strongly, dedupAdjacent_sorted, sort_Stable_sorted.
Qed.

(** ** The chunker *)

Lemma checkAscending_ok items : forall lastValue,
  StronglySorted lt (match lastValue with Some x => x :: items | None => items end) ->
  checkAscending lastValue items = Ret tt.
Proof.
  induction items as [| v rest IH]; intros lastValue Hs; [done |].
  cbn [checkAscending].
  assert (Hhd : match lastValue with None => true | Some l => Less l v end = true).
  { destruct lastValue as [l |]; [| done].
    apply StronglySorted_cons in Hs as [Hall _]. by inversion_clear Hall. }
  rewrite Hhd. simpl. apply IH.
  destruct lastValue as [l |]; [by apply StronglySorted_cons in Hs as [_ ?] | done].
Qed.

Lemma makeSetLeafChunkFn_ok (vrw : option ValueReadWriter) items :
  StronglySorted lt items ->
  makeSetLeafChunkFn vrw 0 items
  = Ret (newSet (leafSeq (newSetLeafSequence items)), lastKey items, N.of_nat (length items)).
Proof.
  intros Hs. unfold makeSetLeafChunkFn. simpl.
  by rewrite (checkAscending_ok items None).
Qed.

Lemma handleChunkBoundary_ok (vrw : option ValueReadWriter) (ch : sequenceChunker) :
  StronglySorted lt (sc_current ch) -> handleChunkBoundary vrw ch = Ret (sealed ch).
Proof.
  intros Hs. unfold handleChunkBoundary. by rewrite makeSetLeafChunkFn_ok.
Qed.

Lemma tupleItems_app (ts1 ts2 : list metaTuple) :
  tupleItems (ts1 ++ ts2) = tupleItems ts1 ++ tupleItems ts2.
Proof. unfold tupleItems. by rewrite map_app, concat_app. Qed.

Lemma sealed_items (ch : sequenceChunker) :
  tupleItems (sc_parent (sealed ch)) ++ sc_current (sealed ch)
  = tupleItems (sc_parent ch) ++ sc_current ch.
Proof.
  unfold sealed. simpl. rewrite tupleItems_app. unfold tupleItems at 2. simpl.
  by rewrite !app_nil_r.
Qed.

Lemma sealed_wf (ch : sequenceChunker) :
  sc_current ch <> [] -> Forall wfTuple (sc_parent ch) ->
  Forall wfTuple (sc_parent (sealed ch)).
Proof.
  intros Hne Hwf. unfold sealed. simpl. apply Forall_app. split; [done |].
  constructor; [| constructor]. by repeat split.
Qed.

(** Appending strictly increasing data never panics; the chunker then holds
    exactly the items it was given, in order. *)
Lemma appendAll_ok (vrw : option ValueReadWriter) data : forall ch,
  StronglySorted lt (sc_current ch ++ data) ->
  Forall wfTuple (sc_parent ch) ->
  exists ch',
    appendAll vrw ch data = Ret ch' /\
    tupleItems (sc_parent ch') ++ sc_current ch'
      = tupleItems (sc_parent ch) ++ sc_current ch ++ data /\
    Forall wfTuple (sc_parent ch') /\
    StronglySorted lt (sc_current ch').
Proof.
  induction data as [| v rest IH]; intros ch Hs Hwf.
  - exists ch. rewrite app_nil_r in *. by repeat split.
  - cbn [appendAll]. unfold Append.
    set (ch1 := {| sc_current := sc_current ch ++ [v]; sc_parent := sc_parent ch |}).
    assert (Hs1 : StronglySorted lt (sc_current ch1 ++ rest))
      by (simpl; by rewrite <- app_assoc).
    destruct (crossesBoundary (sc_current ch1)).
    + rewrite handleChunkBoundary_ok by (by apply StronglySorted_app_1_l in Hs1).
      simpl.
      destruct (IH (sealed ch1)) as (ch' & Hrun & Hitems & Hwf' & Hs').
      { simpl. by apply StronglySorted_app_1_r in Hs1. }
      { apply sealed_wf; [| done]. simpl. by destruct (sc_current ch). }
      exists ch'. split; [done |]. split; [| done].
      rewrite Hitems, app_assoc, sealed_items. subst ch1. simpl.
      by rewrite <- !app_assoc.
    + simpl. destruct (IH ch1 Hs1 Hwf) as (ch' & Hrun & Hitems & Hwf' & Hs').
      exists ch'. split; [done |]. split; [| done].
      rewrite Hitems. subst ch1. simpl. by rewrite <- !app_assoc.
Qed.

Lemma tupleItems_leaves (ts : list metaTuple) : concat (leaves (metaSeq ts)) = tupleItems ts.
Proof. reflexivity. Qed.

Lemma Done_ok (vrw : option ValueReadWriter) (ch : sequenceChunker) :
  StronglySorted lt (tupleItems (sc_parent ch) ++ sc_current ch) ->
  Forall wfTuple (sc_parent ch) ->
  exists s,
    Done vrw ch = Ret s /\
    concat (leaves s) = tupleItems (sc_parent ch) ++ sc_current ch /\
    wfSeq s.
Proof.
  intros Hs Hwf. unfold Done.
  destruct (sc_parent ch) as [| t ts] eqn:Hp.
  - rewrite makeSetLeafChunkFn_ok by done. simpl.
    eexists. split; [done |]. simpl. rewrite app_nil_r.
    split; [done |]. split; [| done]. simpl. by rewrite app_nil_r.
  - destruct (sc_current ch) as [| v cur] eqn:Hc.
    + simpl. rewrite Hp. rewrite app_nil_r in *.
      destruct ts as [| t' ts'].
      * eexists. split; [done |]. split; [done |]. split; [| done]. done.
      * eexists. split; [done |]. split; [done |]. split; done.
    + rewrite handleChunkBoundary_ok
        by (rewrite Hc; by apply StronglySorted_app_1_r in Hs).
      simpl. rewrite Hp, Hc.
      assert (Hall : Forall wfTuple
                (t :: ts ++ [newMetaTuple (newSetLeafSequence (v :: cur))
                               (lastKey (v :: cur)) (N.of_nat (length (v :: cur)))])).
      { rewrite app_comm_cons. apply Forall_app. split; [done |].
        constructor; [| constructor]. by repeat split. }
      assert (Hit : tupleItems
                (t :: ts ++ [newMetaTuple (newSetLeafSequence (v :: cur))
                               (lastKey (v :: cur)) (N.of_nat (length (v :: cur)))])
              = tupleItems (t :: ts) ++ v :: cur).
      { rewrite app_comm_cons, tupleItems_app. unfold tupleItems at 2. simpl.
        by rewrite app_nil_r. }
      set (ts2 := t :: ts ++ _) in *.
      exists (metaSeq ts2). split; [subst ts2; by destruct ts |].
      rewrite tupleItems_leaves, Hit. split; [done |]. split; [| done].
      by rewrite tupleItems_leaves, Hit.
Qed.

(** ** Iteration *)

Lemma iterItems_collect (l : list V) : forall acc,
  iterItems (fun v st0 => (false, st0 ++ [v])) l acc = (false, acc ++ l).
Proof.
  induction l as [| v l IH]; intros acc; simpl; [by rewrite app_nil_r |].
  rewrite IH. by rewrite <- app_assoc.
Qed.

Lemma iterLeaves_collect (ls : list (list V)) : forall acc,
  iterLeaves (fun v st0 => (false, st0 ++ [v])) ls acc = acc ++ concat ls.
Proof.
  induction ls as [| l ls IH]; intros acc; simpl; [by rewrite app_nil_r |].
  rewrite iterItems_collect, IH. by rewrite <- app_assoc.
Qed.

(** [IterAll] visits the items of the leaves from left to right. *)
Lemma members_leaves (s : Set_) : members s = concat (leaves (seq s)).
Proof. unfold members, IterAll. by rewrite iterLeaves_collect. Qed.

(** A callback that never stops is run on every member, in order. *)
Lemma IterAll_members {St : Type} (s : Set_) (cb : V -> St -> St) (st : St) :
  IterAll s cb st = foldl (fun st0 v => cb v st0) st (members s).
Proof.
  rewrite members_leaves. unfold IterAll. generalize (leaves (seq s)) as ls.
  intros ls. revert st. induction ls as [| l ls IH]; intros st; [done |].
  simpl. rewrite foldl_app.
  assert (Hl : forall st0, iterItems (fun v st1 => (false, cb v st1)) l st0
                           = (false, foldl (fun st1 v => cb v st1) st0 l)).
  { induction l as [| v l IHl]; intros st0; simpl; [done | apply IHl]. }
  rewrite Hl. apply IH.
Qed.

(** ** NewSet *)

Lemma build_ok (vrw : option ValueReadWriter) (data : list V) :
  StronglySorted lt data ->
  exists ch s,
    appendAll vrw (newEmptySetSequenceChunker vrw) data = Ret ch /\
    Done vrw ch = Ret s /\
    concat (leaves s) = data /\
    wfSeq s.
Proof.
  intros Hs.
  destruct (appendAll_ok vrw data (newEmptySetSequenceChunker vrw))
    as (ch & Hrun & Hitems & Hwf & Hcur); [done | constructor |].
  simpl in Hitems.
  destruct (Done_ok vrw ch) as (s & Hdone & Hleaves & Hwfs);
    [by rewrite Hitems | done |].
  exists ch, s. by rewrite Hleaves, Hitems.
Qed.

Lemma NewSet_ok (vrw : option ValueReadWriter) (values : list V) :
  exists s,
    NewSet vrw values = Ret s /\
    members s = buildSetData values /\
    wfSeq (seq s).
Proof.
  destruct (build_ok vrw (buildSetData values)) as (ch & s & Hrun & Hdone & Hl & Hwf).
  { apply buildSetData_spec. }
  exists (newSet s). unfold NewSet. rewrite Hrun. simpl. rewrite Hdone. simpl.
  split; [done |]. by rewrite members_leaves.
Qed.

(** ** Has *)

Lemma lastKey_snoc (l : list V) k : lastKey (l ++ [k]) = Some k.
Proof.
  induction l as [| x l IH]; [done |].
  simpl. rewrite IH. by destruct (l ++ [k]) eqn:E; [destruct l |].
Qed.

Lemma lastKey_inv (l : list V) : l <> [] -> exists l' k, l = l' ++ [k] /\ lastKey l = Some k.
Proof.
  intros Hne. destruct l as [| x l] using rev_ind; [done |].
  exists l, x. split; [done | apply lastKey_snoc].
Qed.

(** In a strictly increasing leaf, every item is the last one or below it. *)
Lemma below_lastKey (l : list V) k x :
  StronglySorted lt l -> lastKey l = Some k -> x ∈ l -> x = k \/ lt x k.
Proof.
  intros Hs Hk Hx. destruct (lastKey_inv l) as (l' & k' & -> & Hk').
  { intros ->. by inversion Hx. }
  rewrite Hk in Hk'. injection Hk' as <-.
  apply elem_of_app in Hx as [Hx | Hx].
  - right. eapply StronglySorted_app_1_elem_of; [done | done | by apply list_elem_of_singleton].
  - left. by apply list_elem_of_singleton in Hx.
Qed.

Lemma lastKey_elem (l : list V) k : lastKey l = Some k -> k ∈ l.
Proof.
  intros Hk. destruct l as [| x l0] eqn:E; [done |]. rewrite <- E in *.
  destruct (lastKey_inv l) as (l' & k' & -> & Hk'); [by rewrite E |].
  rewrite Hk in Hk'. injection Hk' as <-. apply elem_of_app. right. by left.
Qed.

Lemma Has_foundAt (s : Set_) v : Has s v = foundAt (newCursorAtValue (seq s) v) v.
Proof.
  unfold Has, foundAt, valid.
  destruct (_ !! _) as [w |] eqn:E; [| by rewrite andb_false_r].
  apply lookup_lt_Some in E. by rewrite bool_decide_eq_true_2.
Qed.

Lemma seekLeaf_found (items : list V) v :
  StronglySorted lt items ->
  foundAt {| cur_leaf := items; cur_idx := seekLeaf items v |} v = true <-> v ∈ items.
Proof.
  unfold foundAt. simpl. induction 1 as [| w rest Hs IH Hall]; simpl.
  - split; [done | by inversion 1].
  - rewrite list.Forall_forall in Hall. destruct (Less w v) eqn:Hwv; simpl.
    + rewrite IH, elem_of_cons. split; [tauto |]. intros [-> | Hin]; [| done].
      by rewrite Less_irrefl in Hwv.
    + rewrite Equals_eq, elem_of_cons. split; [intros ->; by left |].
      intros [-> | Hin]; [done |]. apply Hall in Hin. unfold lt in Hin. congruence.
Qed.

Lemma tupleItems_cons (t : metaTuple) ts :
  tupleItems (t :: ts) = leafData (mt_child t) ++ tupleItems ts.
Proof. reflexivity. Qed.

Lemma seekTuples_found (ts : list metaTuple) v :
  Forall wfTuple ts -> StronglySorted lt (tupleItems ts) ->
  foundAt (seekTuples ts v) v = true <-> v ∈ tupleItems ts.
Proof.
  induction 1 as [| t rest Ht Hrest IH]; intros Hs.
  - unfold foundAt. simpl. split; [done | by inversion 1].
  - rewrite tupleItems_cons in *.
    pose proof (StronglySorted_app_1_l _ _ _ Hs) as Hs1.
    pose proof (StronglySorted_app_1_r _ _ _ Hs) as Hs2.
    destruct Ht as (Hne & Hkey & _).
    destruct (lastKey_inv _ Hne) as (l' & k & Hl & Hk).
    cbn [seekTuples]. rewrite Hkey, Hk. rewrite elem_of_app.
    destruct (Less k v) eqn:Hkv.
    + rewrite IH by done. split; [tauto |]. intros [Hin | Hin]; [| done].
      destruct (below_lastKey _ k v Hs1 Hk Hin) as [-> | Hlt].
      * by rewrite Less_irrefl in Hkv.
      * pose proof (lt_asym _ _ Hlt) as Hle. unfold le in Hle. congruence.
    + rewrite seekLeaf_found by done. split; [tauto |]. intros [Hin | Hin]; [done |].
      pose proof (StronglySorted_app_1_elem_of _ _ _ k v Hs (lastKey_elem _ _ Hk) Hin) as Hlt.
      unfold lt in Hlt. congruence.
Qed.

(** On a well-formed set [Has] answers membership. *)
Lemma Has_spec (s : Set_) v : wfSeq (seq s) -> Has s v = true <-> v ∈ members s.
Proof.
  intros [Hs Hwf]. rewrite Has_foundAt, members_leaves.
  destruct (seq s) as [l | ts]; simpl in *.
  - rewrite app_nil_r in *. by apply seekLeaf_found.
  - by apply seekTuples_found.
Qed.


Lemma NewSet_wf (vrw : option ValueReadWriter) (values : list V) (s : Set_) :
  NewSet vrw values = Ret s -> wfSeq (seq s).
Proof.
  intros Hrun. destruct (NewSet_ok vrw values) as (s' & Hrun' & _ & Hwf).
  rewrite Hrun in Hrun'. by injection Hrun' as ->.
Qed.

(** ** The empty set *)

(** C9: building a set from zero items returns a set whose root is a single
    empty leaf; [Len] is 0, [Empty] is true, and [Iter] and [IterAll] return
    at once without running their callback. *)
Theorem NewSet_of_nothing (vrw : option ValueReadWriter) :
  exists s : Set_,
    NewSet vrw [] = Ret s /\
    seq s = leafSeq (newSetLeafSequence []) /\
    Len s = 0%N /\
    Empty s = true /\
    members s = [] /\
    (forall (St : Type) (cb : V -> St -> bool * St) (st : St), Iter s cb st = st) /\
    (forall (St : Type) (cb : V -> St -> St) (st : St), IterAll s cb st = st).
Proof.
  exists (newSet (leafSeq (newSetLeafSequence []))). by repeat split.
Qed.

(** ** Len and At *)

Lemma numLeaves_tuples (ts : list metaTuple) :
  Forall wfTuple ts ->
  foldr (fun t n => (mt_numLeaves t + n)%N) 0%N ts = N.of_nat (length (tupleItems ts)).
Proof.
  induction 1 as [| t rest (_ & _ & Hn) _ IH]; [done |].
  rewrite tupleItems_cons, length_app. simpl. rewrite IH, Hn. lia.
Qed.

(** [Len] counts the members. *)
Lemma Len_members (s : Set_) : wfSeq (seq s) -> Len s = N.of_nat (length (members s)).
Proof.
  intros [_ Hwf]. rewrite members_leaves. unfold Len.
  destruct (seq s) as [l | ts]; simpl.
  - by rewrite app_nil_r.
  - by apply numLeaves_tuples.
Qed.

Lemma seekIndex_lookup (ts : list metaTuple) :
  Forall wfTuple ts -> forall idx,
  cur_leaf (seekIndex ts idx) !! cur_idx (seekIndex ts idx)
  = tupleItems ts !! N.to_nat idx.
Proof.
  induction 1 as [| t rest (_ & _ & Hn) _ IH]; intros idx; [done |].
  rewrite tupleItems_cons. cbn [seekIndex]. rewrite Hn.
  destruct (N.ltb_spec idx (N.of_nat (length (leafData (mt_child t))))) as [Hlt | Hge].
  - simpl. rewrite lookup_app_l by lia. done.
  - rewrite IH. rewrite lookup_app_r by lia. f_equal. lia.
Qed.

Lemma newCursorAtIndex_lookup (s : Set_) idx :
  wfSeq (seq s) ->
  current (newCursorAtIndex (seq s) idx)
  = match members s !! N.to_nat idx with
    | Some v => Ret v
    | None => Panic "cursor is not valid"
    end.
Proof.
  intros [_ Hwf]. rewrite members_leaves. unfold current.
  destruct (seq s) as [l | ts]; simpl.
  - by rewrite app_nil_r.
  - by rewrite seekIndex_lookup.
Qed.


(** ** NewStreamingSet *)

Lemma outOfOrder_inOrder (vChan : list (option V)) : forall lastV j,
  outOfOrderAt vChan j -> inOrder lastV vChan = false.
Proof.
  induction vChan as [| v rest IH]; intros lastV j Hbad.
  - destruct Hbad as [Hn | (a & b & Ha & _)]; by rewrite lookup_nil in *.
  - destruct v as [x |]; [| done]. cbn [inOrder].
    destruct j as [| j].
    + destruct Hbad as [Hn | (a & b & Ha & Hb & Hab)]; [done |].
      simpl in Ha, Hb. injection Ha as ->.
      destruct rest as [| [y |] rest']; [done | | done].
      injection Hb as ->. cbn [inOrder]. rewrite Hab. by rewrite andb_false_r.
    + rewrite (IH (Some x) j); [by rewrite andb_false_r |].
      destruct Hbad as [Hn | (a & b & Ha & Hb & Hab)]; [by left |].
      right. by exists a, b.
Qed.

Lemma checkAscending_not_blocked (items : list V) : forall lastValue,
  checkAscending lastValue items <> Blocked.
Proof.
  induction items as [| v rest IH]; intros lastValue; [done |].
  cbn [checkAscending].
  destruct (match lastValue with None => true | Some l => Less l v end); simpl; [apply IH | done].
Qed.

Lemma Append_not_blocked (vrw : option ValueReadWriter) (ch : sequenceChunker) v :
  Append vrw ch v <> Blocked.
Proof.
  unfold Append. destruct (crossesBoundary _); [| done].
  unfold handleChunkBoundary, makeSetLeafChunkFn. simpl.
  pose proof (checkAscending_not_blocked (sc_current ch ++ [v]) None) as Hc.
  by destruct (checkAscending None (sc_current ch ++ [v])) as [[] | |].
Qed.

(** A stream that is not in order makes the loop of [readSetInput] panic. *)
Lemma readSetInput_loop_panics (vrw : option ValueReadWriter) (vChan : list (option V)) :
  forall ch lastV,
  inOrder lastV vChan = false -> panics (readSetInput_loop vrw ch lastV vChan) = true.
Proof.
  induction vChan as [| v rest IH]; intros ch lastV Hbad; [done |].
  destruct v as [x |]; [| done]. cbn [inOrder] in Hbad. cbn [readSetInput_loop].
  simpl. destruct lastV as [l |]; simpl in *.
  - destruct (Less l x); simpl in *; [| done].
    pose proof (Append_not_blocked vrw ch x) as Hnb.
    destruct (Append vrw ch x) as [ch1 | |]; simpl; [by apply IH | done | done].
  - pose proof (Append_not_blocked vrw ch x) as Hnb.
    destruct (Append vrw ch x) as [ch1 | |]; simpl; [by apply IH | done | done].
Qed.

(** On a stream in order the loop of [readSetInput] is the loop of [NewSet]. *)
Lemma readSetInput_loop_appendAll (vrw : option ValueReadWriter) (values : list V) :
  forall ch lastV,
  inOrder lastV (Some <$> values) = true ->
  readSetInput_loop vrw ch lastV (Some <$> values) = appendAll vrw ch values.
Proof.
  induction values as [| x rest IH]; intros ch lastV Hok; [done |].
  cbn [fmap list_fmap inOrder] in Hok. apply andb_prop in Hok as [Hhd Hrest].
  cbn [fmap list_fmap readSetInput_loop appendAll]. simpl.
  assert (Hck : (match lastV with Some l => PanicIfFalse (Less l x) | None => Ret tt end)
                = Ret tt) by (destruct lastV; [by rewrite Hhd | done]).
  rewrite Hck. simpl. destruct (Append vrw ch x) as [ch1 | |]; simpl; [| done | done].
  by apply IH.
Qed.

Lemma sorted_inOrder (values : list V) : forall lastV,
  StronglySorted lt (match lastV with Some l => l :: values | None => values end) ->
  inOrder lastV (Some <$> values) = true.
Proof.
  induction values as [| x rest IH]; intros lastV Hs; [done |].
  cbn [fmap list_fmap inOrder]. apply andb_true_intro. split.
  - destruct lastV as [l |]; [| done].
    apply StronglySorted_cons in Hs as [Hall _]. by inversion_clear Hall.
  - apply (IH (Some x)). destruct lastV; [by apply StronglySorted_cons in Hs as [_ ?] | done].
Qed.

(** C8: when some value sent to [NewStreamingSet] is nil or is not greater
    than the value sent before it, the construction panics and no set is
    produced; a stream of strictly increasing values (read against a non-nil
    [vrw], which [newStreamingSet] checks before anything is read) does not
    panic and yields the set of those values. *)
Theorem NewStreamingSet_checks_order (vrw : option ValueReadWriter) (vChan : list (option V)) :
  ((exists j, outOfOrderAt vChan j) -> panics (NewStreamingSet vrw vChan) = true) /\
  (forall values, vChan = Some <$> values -> StronglySorted lt values -> vrw <> None ->
     exists s, NewStreamingSet vrw vChan = Ret s /\ members s = values).
Proof.
  split.
  - intros (j & Hbad). unfold NewStreamingSet, newStreamingSet.
    destruct vrw as [w |]; [| done]. simpl. unfold readSetInput.
    pose proof (readSetInput_loop_panics (Some w) vChan
                  (newEmptySetSequenceChunker (Some w)) None
                  (outOfOrder_inOrder vChan None j Hbad)) as Hp.
    by destruct (readSetInput_loop _ _ _ _).
  - intros values -> Hs Hvrw. unfold NewStreamingSet, newStreamingSet.
    destruct vrw as [w |]; [| done]. simpl. unfold readSetInput.
    rewrite readSetInput_loop_appendAll by (by apply sorted_inOrder).
    destruct (build_ok (Some w) values Hs) as (ch & s & Hrun & Hdone & Hl & _).
    rewrite Hrun. simpl. rewrite Hdone. simpl.
    exists (newSet s). split; [done |]. by rewrite members_leaves.
Qed.

(** ** Diff *)

#[local] Abbreviation ValueChanged := (@types.ValueChanged V).
#[local] Abbreviation Removed := (@newValueChanged V DiffChangeRemoved).
#[local] Abbreviation Added := (@newValueChanged V DiffChangeAdded).

Lemma diffItems_cons_cons (x y : V) l1 l2 :
  diffItems (x :: l1) (y :: l2)
  = if Less x y then Removed x :: diffItems l1 (y :: l2)
    else if Less y x then Added y :: diffItems (x :: l1) l2
    else diffItems l1 l2.
Proof. reflexivity. Qed.

Lemma diffItems_nil_l (l : list V) : diffItems [] l = map Added l.
Proof. reflexivity. Qed.

Lemma diffItems_nil_r (l : list V) : diffItems l [] = map Removed l.
Proof. by destruct l. Qed.

Lemma diffItems_same (l : list V) : diffItems l l = [].
Proof.
  induction l as [| x l IH]; [done |].
  by rewrite diffItems_cons_cons, Less_irrefl.
Qed.

(** Items of the old tree below everything else are reported first. *)
Lemma diffItems_left (A1 B1 B2 : list V) :
  (forall a b, a ∈ A1 -> b ∈ B2 -> lt a b) ->
  diffItems (A1 ++ B1) B2 = map Removed A1 ++ diffItems B1 B2.
Proof.
  intros Hlt. induction A1 as [| a A1 IH]; [done |].
  destruct B2 as [| b B2].
  - rewrite !diffItems_nil_r. simpl. by rewrite map_app.
  - simpl app. rewrite diffItems_cons_cons.
    assert (Hab : lt a b) by (apply Hlt; by left).
    rewrite Hab. simpl. f_equal. apply IH.
    intros a' b' Ha' Hb'. apply Hlt; [by right | done].
Qed.

Lemma diffItems_right (A2 B1 B2 : list V) :
  (forall a b, a ∈ A2 -> b ∈ B1 -> lt a b) ->
  diffItems B1 (A2 ++ B2) = map Added A2 ++ diffItems B1 B2.
Proof.
  intros Hlt. induction A2 as [| a A2 IH]; [done |].
  destruct B1 as [| b B1].
  - rewrite !diffItems_nil_l. simpl. by rewrite map_app.
  - simpl app. rewrite diffItems_cons_cons.
    assert (Hab : lt a b) by (apply Hlt; by left).
    pose proof (lt_asym _ _ Hab) as Hba. unfold le in Hba. rewrite Hba, Hab.
    simpl. f_equal. apply IH.
    intros a' b' Ha' Hb'. apply Hlt; [by right | done].
Qed.

(** The diff of two lists that both split at the same key is the diff of the
    parts below it followed by the diff of the parts above it. *)
Lemma diffItems_split (A1 : list V) : forall A2 B1 B2,
  (forall a b, a ∈ A1 ++ A2 -> b ∈ B1 ++ B2 -> lt a b) ->
  diffItems (A1 ++ B1) (A2 ++ B2) = diffItems A1 A2 ++ diffItems B1 B2.
Proof.
  induction A1 as [| a1 A1 IH1]; intros A2 B1 B2 Hlt.
  - rewrite diffItems_nil_l. apply diffItems_right.
    intros a b Ha Hb. apply Hlt; [done | apply elem_of_app; by left].
  - induction A2 as [| a2 A2 IH2].
    + rewrite diffItems_nil_r. apply diffItems_left.
      intros a b Ha Hb. apply Hlt; [by rewrite app_nil_r | apply elem_of_app; by right].
    + simpl app. rewrite !diffItems_cons_cons.
      destruct (Less a1 a2) eqn:H12; [| destruct (Less a2 a1) eqn:H21].
      * simpl. f_equal. apply (IH1 (a2 :: A2)).
        intros a b Ha Hb. apply Hlt; [| done]. simpl. by right.
      * simpl. f_equal. apply IH2.
        intros a b Ha Hb. apply Hlt; [| done].
        apply elem_of_app in Ha as [Ha | Ha]; apply elem_of_app; [by left |].
        right. by right.
      * apply IH1. intros a b Ha Hb. apply Hlt; [| done].
        apply elem_of_app in Ha as [Ha | Ha]; apply elem_of_app;
          [left | right]; by right.
Qed.

Lemma elem_of_map_change (k : DiffChangeType) (l : list V) (c : ValueChanged) :
  c ∈ map (newValueChanged k) l <-> ChangeType c = k /\ Key c ∈ l.
Proof.
  change (map (newValueChanged k) l) with (newValueChanged k <$> l).
  rewrite list_elem_of_fmap. split.
  - by intros (v & -> & Hv).
  - intros [<- Hv]. exists (Key c). by destruct c.
Qed.

Lemma sorted_head_notin (x : V) (l : list V) v :
  StronglySorted lt (x :: l) -> v ∈ l -> lt x v /\ v <> x.
Proof.
  intros Hs Hv. apply StronglySorted_cons in Hs as [Hall _].
  rewrite list.Forall_forall in Hall. split; [by apply Hall |].
  intros ->. by apply (lt_irrefl x), Hall.
Qed.

Lemma diffItems_elem (l1 : list V) : forall l2,
  StronglySorted lt l1 -> StronglySorted lt l2 ->
  forall c, c ∈ diffItems l1 l2 <-> isChange l1 l2 c.
Proof.
  unfold isChange. induction l1 as [| x l1 IH1]; intros l2 Hs1 Hs2 c.
  - rewrite diffItems_nil_l, elem_of_map_change. split.
    + intros [Hc Hin]. right. split; [done |]. split; [done | apply not_elem_of_nil].
    + intros [(_ & Hin & _) | (Hc & Hin & _)]; [by inversion Hin | done].
  - pose proof (StronglySorted_inv Hs1) as [Hs1' _].
    induction l2 as [| y l2 IH2].
    + rewrite diffItems_nil_r, elem_of_map_change. split.
      * intros [Hc Hin]. left. split; [done |]. split; [done | apply not_elem_of_nil].
      * intros [(Hc & Hin & _) | (_ & Hin & _)]; [done | by inversion Hin].
    + pose proof (StronglySorted_inv Hs2) as [Hs2' _].
      pose proof (sorted_head_notin x l1) as Hx.
      pose proof (sorted_head_notin y l2) as Hy.
      rewrite diffItems_cons_cons.
      destruct (Less x y) eqn:Hxy; [| destruct (Less y x) eqn:Hyx].
      * rewrite elem_of_cons, (IH1 (y :: l2)) by done.
        assert (Hne : x <> y) by (intros ->; by rewrite Less_irrefl in Hxy).
        assert (Hfar : forall v, v ∈ l2 -> v <> x).
        { intros v Hv ->. destruct (Hy x Hs2 Hv) as [Hlt _].
          pose proof (lt_asym _ _ Hlt) as Hle. unfold le in Hle. congruence. }
        split.
        -- intros [-> | [(Hc & Hin & Hout) | (Hc & Hin & Hout)]]; simpl.
           ++ left. split; [done |]. split; [by left |].
              rewrite elem_of_cons. intros [Heq | Hin]; [done | by apply (Hfar x Hin)].
           ++ left. split; [done |]. split; [by right | done].
           ++ right. split; [done |]. split; [done |].
              rewrite elem_of_cons. rewrite elem_of_cons in Hin.
              intros [Heq | Hin1]; [| done].
              destruct Hin as [Hin | Hin]; [congruence | by apply (Hfar _ Hin)].
        -- intros [(Hc & Hin & Hout) | (Hc & Hin & Hout)].
           ++ apply elem_of_cons in Hin as [Hin | Hin].
              ** left. destruct c as [k v]. simpl in *. by subst.
              ** right. by left.
           ++ right. right. split; [done |]. split; [done |].
              intros Hin1. apply Hout. by right.
      * rewrite elem_of_cons, IH2 by done.
        assert (Hne : x <> y) by (intros ->; by rewrite Less_irrefl in Hyx).
        assert (Hfar : forall v, v ∈ l1 -> v <> y).
        { intros v Hv ->. destruct (Hx y Hs1 Hv) as [Hlt _].
          pose proof (lt_asym _ _ Hlt) as Hle. unfold le in Hle. congruence. }
        split.
        -- intros [-> | [(Hc & Hin & Hout) | (Hc & Hin & Hout)]]; simpl.
           ++ right. split; [done |]. split; [by left |].
              rewrite elem_of_cons. intros [Heq | Hin]; [done | by apply (Hfar y Hin)].
           ++ left. split; [done |]. split; [done |].
              rewrite elem_of_cons. rewrite elem_of_cons in Hin.
              intros [Heq | Hin2]; [| done].
              destruct Hin as [Hin | Hin]; [congruence | by apply (Hfar _ Hin)].
           ++ right. split; [done |]. split; [by right | done].
        -- intros [(Hc & Hin & Hout) | (Hc & Hin & Hout)].
           ++ right. left. split; [done |]. split; [done |].
              intros Hin2. apply Hout. by right.
           ++ apply elem_of_cons in Hin as [Hin | Hin].
              ** left. destruct c as [k v]. simpl in *. by subst.
              ** right. right. done.
      * assert (x = y) as <- by (by apply Less_total).
        rewrite IH1 by done. rewrite !elem_of_cons. split.
        -- intros [(Hc & Hin & Hout) | (Hc & Hin & Hout)].
           ++ left. split; [done |]. split; [by right |].
              intros [Heq | Hin2]; [| done]. by destruct (Hx _ Hs1 Hin).
           ++ right. split; [done |]. split; [by right |].
              intros [Heq | Hin1]; [| done]. by destruct (Hy _ Hs2 Hin).
        -- intros [(Hc & Hin & Hout) | (Hc & Hin & Hout)].
           ++ left. split; [done |]. split.
              ** destruct Hin as [Heq | Hin]; [| done]. exfalso. apply Hout. by left.
              ** intros Hin2. apply Hout. by right.
           ++ right. split; [done |]. split.
              ** destruct Hin as [Heq | Hin]; [| done]. exfalso. apply Hout. by left.
              ** intros Hin1. apply Hout. by right.
Qed.

Lemma leftRight_elem (last current : Set_) :
  wfSeq (seq last) -> wfSeq (seq current) ->
  forall c, c ∈ orderedSequenceDiffLeftRight (seq last) (seq current)
            <-> isChange (members last) (members current) c.
Proof.
  intros [Hl _] [Hc _] c. rewrite !members_leaves. by apply diffItems_elem.
Qed.

Context {HashT : Type} `{EqDecision HashT}.
Variable hashOf : orderedSequence -> HashT.

#[local] Abbreviation noCollision := (SetSpec.noCollision hashOf).

Lemma lastKey_app (p l : list V) : l <> [] -> lastKey (p ++ l) = lastKey l.
Proof.
  intros Hne. destruct (lastKey_inv l Hne) as (l' & k & -> & ->).
  by rewrite app_assoc, lastKey_snoc.
Qed.

(** One comparison of the top-down diff: the two children end at the same
    key. *)
Lemma aligned_step (p1 p2 : list V) (t1 t2 : metaTuple) (r1 r2 : list metaTuple) :
  wfTuple t1 -> wfTuple t2 ->
  StronglySorted lt (p1 ++ tupleItems (t1 :: r1)) ->
  StronglySorted lt (p2 ++ tupleItems (t2 :: r2)) ->
  keyLess (mt_key t1) (mt_key t2) = false ->
  keyLess (mt_key t2) (mt_key t1) = false ->
  (hashOf (leafSeq (mt_child t1)) = hashOf (leafSeq (mt_child t2)) ->
   mt_child t1 = mt_child t2) ->
  (if noItems p1 && noItems p2 &&
      bool_decide (hashOf (leafSeq (mt_child t1)) = hashOf (leafSeq (mt_child t2)))
   then []
   else diffItems (p1 ++ leafData (mt_child t1)) (p2 ++ leafData (mt_child t2)))
  ++ diffItems (tupleItems r1) (tupleItems r2)
  = diffItems (p1 ++ tupleItems (t1 :: r1)) (p2 ++ tupleItems (t2 :: r2)).
Proof.
  intros (Hne1 & Hk1 & _) (Hne2 & Hk2 & _) Hs1 Hs2 H12 H21 Hhash.
  rewrite !tupleItems_cons, !app_assoc in *.
  set (A1 := p1 ++ leafData (mt_child t1)) in *.
  set (A2 := p2 ++ leafData (mt_child t2)) in *.
  destruct (lastKey_inv _ Hne1) as (l1 & k1 & Hl1 & Hlast1).
  destruct (lastKey_inv _ Hne2) as (l2 & k2 & Hl2 & Hlast2).
  rewrite Hk1, Hk2, Hlast1, Hlast2 in H12, H21. simpl in H12, H21.
  assert (k1 = k2) as <- by (by apply Less_total).
  assert (HA1 : lastKey A1 = Some k1) by (subst A1; by rewrite lastKey_app).
  assert (HA2 : lastKey A2 = Some k1) by (subst A2; by rewrite lastKey_app).
  rewrite diffItems_split.
  - f_equal. destruct (noItems p1 && noItems p2 && bool_decide _) eqn:Hc; [| done].
    apply andb_prop in Hc as [Hc Hh]. apply andb_prop in Hc as [Hp1 Hp2].
    apply bool_decide_eq_true_1 in Hh. apply Hhash in Hh.
    subst A1 A2. destruct p1; [| done]. destruct p2; [| done]. simpl.
    by rewrite Hh, diffItems_same.
  - intros a b Ha Hb.
    assert (Hak : a = k1 \/ lt a k1).
    { apply elem_of_app in Ha as [Ha | Ha].
      - apply (below_lastKey A1); [by apply StronglySorted_app_1_l in Hs1 | done | done].
      - apply (below_lastKey A2); [by apply StronglySorted_app_1_l in Hs2 | done | done]. }
    assert (Hkb : lt k1 b).
    { apply elem_of_app in Hb as [Hb | Hb].
      - apply (StronglySorted_app_1_elem_of _ _ _ _ _ Hs1); [by apply lastKey_elem | done].
      - apply (StronglySorted_app_1_elem_of _ _ _ _ _ Hs2); [by apply lastKey_elem | done]. }
    destruct Hak as [-> | Hak]; [done | by eapply lt_trans].
Qed.

Lemma diffRanges_cons_cons (p1 p2 : list V) (t1 t2 : metaTuple) (r1 r2 : list metaTuple) :
  diffRanges hashOf p1 (t1 :: r1) p2 (t2 :: r2)
  = if keyLess (mt_key t1) (mt_key t2)
    then diffRanges hashOf (p1 ++ leafData (mt_child t1)) r1 p2 (t2 :: r2)
    else if keyLess (mt_key t2) (mt_key t1)
    then diffRanges hashOf p1 (t1 :: r1) (p2 ++ leafData (mt_child t2)) r2
    else
      (if noItems p1 && noItems p2 &&
          bool_decide (hashOf (leafSeq (mt_child t1)) = hashOf (leafSeq (mt_child t2)))
       then []
       else diffItems (p1 ++ leafData (mt_child t1)) (p2 ++ leafData (mt_child t2)))
      ++ diffRanges hashOf [] r1 [] r2.
Proof. reflexivity. Qed.

Lemma noCollision_tail_l t1 r1 ts2 : noCollision (t1 :: r1) ts2 -> noCollision r1 ts2.
Proof. intros Hn a b Ha Hb. apply Hn; [by right | done]. Qed.

Lemma noCollision_tail_r ts1 t2 r2 : noCollision ts1 (t2 :: r2) -> noCollision ts1 r2.
Proof. intros Hn a b Ha Hb. apply Hn; [done | by right]. Qed.

(** The top-down diff reports what the left-to-right diff of the same items
    reports. *)
Lemma diffRanges_spec (ts1 : list metaTuple) : forall p1 p2 ts2,
  Forall wfTuple ts1 -> Forall wfTuple ts2 ->
  StronglySorted lt (p1 ++ tupleItems ts1) ->
  StronglySorted lt (p2 ++ tupleItems ts2) ->
  noCollision ts1 ts2 ->
  diffRanges hashOf p1 ts1 p2 ts2 = diffItems (p1 ++ tupleItems ts1) (p2 ++ tupleItems ts2).
Proof.
  induction ts1 as [| t1 r1 IH1]; intros p1 p2 ts2 Hw1 Hw2 Hs1 Hs2 Hnc.
  - simpl. by rewrite app_nil_r.
  - revert p2 Hs2. induction ts2 as [| t2 r2 IH2]; intros p2 Hs2.
    + simpl. by rewrite !app_nil_r.
    + rewrite diffRanges_cons_cons.
      pose proof (Forall_inv Hw1) as Ht1. pose proof (Forall_inv_tail Hw1) as Hr1.
      pose proof (Forall_inv Hw2) as Ht2. pose proof (Forall_inv_tail Hw2) as Hr2.
      destruct (keyLess (mt_key t1) (mt_key t2)) eqn:H12;
        [| destruct (keyLess (mt_key t2) (mt_key t1)) eqn:H21].
      * rewrite IH1; try done.
        -- by rewrite (tupleItems_cons t1), app_assoc.
        -- by rewrite (tupleItems_cons t1), app_assoc in Hs1.
        -- by eapply noCollision_tail_l.
      * rewrite IH2; try done.
        -- by rewrite (tupleItems_cons t2), (app_assoc p2).
        -- by eapply noCollision_tail_r.
        -- by rewrite (tupleItems_cons t2), app_assoc in Hs2.
      * rewrite IH1; try done.
        -- simpl. apply aligned_step; try done. apply Hnc; by left.
        -- simpl. rewrite tupleItems_cons in Hs1.
           by do 2 apply StronglySorted_app_1_r in Hs1.
        -- simpl. rewrite tupleItems_cons in Hs2.
           by do 2 apply StronglySorted_app_1_r in Hs2.
        -- by eapply noCollision_tail_l, noCollision_tail_r.
Qed.

(** So does the hybrid diff, whatever its budget. *)
Lemma diffRangesBounded_spec (budget : nat) : forall p1 ts1 p2 ts2,
  Forall wfTuple ts1 -> Forall wfTuple ts2 ->
  StronglySorted lt (p1 ++ tupleItems ts1) ->
  StronglySorted lt (p2 ++ tupleItems ts2) ->
  noCollision ts1 ts2 ->
  diffRangesBounded hashOf budget p1 ts1 p2 ts2
  = diffItems (p1 ++ tupleItems ts1) (p2 ++ tupleItems ts2).
Proof.
  induction budget as [| budget IH]; intros p1 ts1 p2 ts2 Hw1 Hw2 Hs1 Hs2 Hnc; [done |].
  destruct ts1 as [| t1 r1]; [simpl; by rewrite app_nil_r |].
  destruct ts2 as [| t2 r2]; [simpl; by rewrite !app_nil_r |].
  cbn [diffRangesBounded].
  pose proof (Forall_inv Hw1) as Ht1. pose proof (Forall_inv_tail Hw1) as Hr1.
  pose proof (Forall_inv Hw2) as Ht2. pose proof (Forall_inv_tail Hw2) as Hr2.
  destruct (keyLess (mt_key t1) (mt_key t2)) eqn:H12;
    [| destruct (keyLess (mt_key t2) (mt_key t1)) eqn:H21].
  - rewrite IH; try done.
    + by rewrite (tupleItems_cons t1), app_assoc.
    + by rewrite (tupleItems_cons t1), app_assoc in Hs1.
    + by eapply noCollision_tail_l.
  - rewrite IH; try done.
    + by rewrite (tupleItems_cons t2), (app_assoc p2).
    + by rewrite (tupleItems_cons t2), app_assoc in Hs2.
    + by eapply noCollision_tail_r.
  - rewrite IH; try done.
    + simpl. apply aligned_step; try done. apply Hnc; by left.
    + simpl. rewrite tupleItems_cons in Hs1.
      by do 2 apply StronglySorted_app_1_r in Hs1.
    + simpl. rewrite tupleItems_cons in Hs2.
      by do 2 apply StronglySorted_app_1_r in Hs2.
    + by eapply noCollision_tail_l, noCollision_tail_r.
Qed.

Variable lookAhead : nat.

Lemma topLevel_wf (s : orderedSequence) :
  wfSeq s ->
  Forall wfTuple (topLevel s) /\ tupleItems (topLevel s) = concat (leaves s).
Proof.
  intros [_ Hwf]. destruct s as [[data] | ts]; [| done].
  simpl. destruct data as [| v data]; [done |].
  split; [| done]. constructor; [| constructor]. by repeat split.
Qed.

Lemma topDown_leftRight (last current : orderedSequence) :
  wfSeq last -> wfSeq current ->
  noCollision (topLevel last) (topLevel current) ->
  orderedSequenceDiffTopDown hashOf last current
  = orderedSequenceDiffLeftRight last current.
Proof.
  intros Hl Hc Hnc.
  destruct (topLevel_wf last Hl) as [Hwl Hil].
  destruct (topLevel_wf current Hc) as [Hwc Hic].
  unfold orderedSequenceDiffTopDown, orderedSequenceDiffLeftRight.
  rewrite diffRanges_spec; try done; simpl.
  - by rewrite Hil, Hic.
  - rewrite Hil. apply Hl.
  - rewrite Hic. apply Hc.
Qed.

Lemma best_leftRight (last current : orderedSequence) :
  wfSeq last -> wfSeq current ->
  noCollision (topLevel last) (topLevel current) ->
  orderedSequenceDiffBest hashOf lookAhead last current
  = orderedSequenceDiffLeftRight last current.
Proof.
  intros Hl Hc Hnc.
  destruct (topLevel_wf last Hl) as [Hwl Hil].
  destruct (topLevel_wf current Hc) as [Hwc Hic].
  unfold orderedSequenceDiffBest, orderedSequenceDiffLeftRight.
  rewrite diffRangesBounded_spec; try done; simpl.
  - by rewrite Hil, Hic.
  - rewrite Hil. apply Hl.
  - rewrite Hic. apply Hc.
Qed.


End Facts.

(** ** Number values, for the examples *)

#[export] Instance Number_ValueLaws : ValueLaws Z.
Proof.
  split; simpl.
  - intros v w. apply Z.eqb_eq.
  - intros v. apply Z.ltb_irrefl.
  - intros u v w. rewrite !Z.ltb_lt. lia.
  - intros v w. rewrite !Z.ltb_ge. lia.
Qed.

Lemma leavesHash_noCollision (ts1 ts2 : list (metaTuple (V := Z))) :
  noCollision leavesHash ts1 ts2.
Proof.
  intros t1 t2 _ _ Hh. unfold leavesHash in Hh. simpl in Hh.
  destruct (mt_child t1), (mt_child t2). simpl in Hh. congruence.
Qed.

Example NewSet_setOld : NewSet (Some tt) [5; 3; 1; 2; 4; 3]%Z = Ret setOld.
Proof. reflexivity. Qed.

Example NewSet_setNew : NewSet (Some tt) [6; 5; 4; 2; 1]%Z = Ret setNew.
Proof. reflexivity. Qed.

Lemma wf_setOld : wfSeq (seq setOld).
Proof. exact (NewSet_wf (Some tt) _ _ NewSet_setOld). Qed.

Lemma wf_setNew : wfSeq (seq setNew).
Proof. exact (NewSet_wf (Some tt) _ _ NewSet_setNew). Qed.

(** The scenario of the specification: from {1,2,3,4,5} to {1,2,4,5,6} every
    entry point reports "3 removed, 6 added". *)
Example Diff_scenario :
  Diff leavesHash setNew setOld
    = [newValueChanged DiffChangeRemoved 3%Z; newValueChanged DiffChangeAdded 6%Z] /\
  DiffHybrid leavesHash 1 setNew setOld
    = [newValueChanged DiffChangeRemoved 3%Z; newValueChanged DiffChangeAdded 6%Z] /\
  DiffLeftRight leavesHash setNew setOld
    = [newValueChanged DiffChangeRemoved 3%Z; newValueChanged DiffChangeAdded 6%Z].
Proof. repeat split. Qed.



Lemma NewStreamingSet_checks_order_witness :
  panics (NewStreamingSet (Some tt) [Some 1; Some 2; Some 2]%Z) = true /\
  exists s, NewStreamingSet (Some tt) (Some <$> [1; 2; 4]%Z) = Ret s /\
            members s = [1; 2; 4]%Z.
Proof.
  split.
  - apply (proj1 (NewStreamingSet_checks_order (Some tt) [Some 1; Some 2; Some 2]%Z)).
    exists 1%nat. right. exists 2%Z, 2%Z. repeat split.
  - apply (proj2 (NewStreamingSet_checks_order (Some tt) (Some <$> [1; 2; 4]%Z))
             [1; 2; 4]%Z eq_refl).
    + repeat constructor.
    + discriminate.
Defined.


End SetProofs.

(** * Further facts about the chunk store *)

Module ChunkStoreMore.
Import ipfs ChunkStoreSpec ChunkStoreProofs.

(** ** Hashes and CIDs *)

Lemma copyIntoHash_exact (h : Hash) : length h = ByteLen -> copyIntoHash h = h.
Proof.
  intros Hlen. unfold copyIntoHash.
  rewrite take_app_le by lia. apply take_ge. lia.
Qed.

Lemma nomsHashToCID_inj (h1 h2 : Hash) : nomsHashToCID h1 = nomsHashToCID h2 -> h1 = h2.
Proof. unfold nomsHashToCID. congruence. Qed.



(** ** The admission gate *)

Lemma RateLimitAdd_full cs : rateLimitCap <= rateLimit cs -> RateLimitAdd cs = Blocked.
Proof. intros Hfull. unfold RateLimitAdd. rewrite decide_False by lia. done. Qed.

Lemma chunkOfBlock_cases h r :
  (exists chunk, chunkOfBlock h r = Ret chunk) \/ (exists msg, chunkOfBlock h r = Panic msg).
Proof. destruct r as [b | [| | msg]]; simpl; eauto. Qed.

Lemma Get_full cs h : rateLimitCap <= rateLimit cs -> Get cs h = Blocked.
Proof. intros Hfull. unfold Get. by rewrite RateLimitAdd_full. Qed.

Lemma Put_full cs c : rateLimitCap <= rateLimit cs -> Put cs c = Blocked.
Proof. intros Hfull. unfold Put. by rewrite RateLimitAdd_full. Qed.

Lemma Has_full cs h :
  rateLimitCap <= (if local cs then rateLimit cs else S (rateLimit cs)) ->
  Has cs h = Blocked.
Proof.
  intros Hfull. unfold Has.
  destruct (decide (rateLimit cs < rateLimitCap)) as [Hlt | Hge].
  - rewrite RateLimitAdd_open by done. osimpl.
    destruct (local cs); [lia |].
    rewrite Get_full by (simpl; lia). reflexivity.
  - rewrite RateLimitAdd_full by lia. reflexivity.
Qed.

Lemma Has_open cs h :
  (if local cs then rateLimit cs else S (rateLimit cs)) < rateLimitCap ->
  (exists ok, Has cs h = Ret (ok, released cs)) \/ (exists msg, Has cs h = Panic msg).
Proof.
  intros Hopen. destruct (local cs) eqn:Hloc.
  - rewrite Has_unfold_local by done.
    destruct (Blockstore_Has _ _) as [ok | e]; simpl; eauto.
  - rewrite Has_unfold_remote by done.
    destruct (chunkOfBlock_cases h (lookupBlock cs (nomsHashToCID h))) as [[chunk ->] | [msg ->]];
      simpl; eauto.
Qed.

Lemma Get_open cs h :
  rateLimit cs < rateLimitCap ->
  (exists chunk, Get cs h = Ret (chunk, released cs)) \/ (exists msg, Get cs h = Panic msg).
Proof.
  intros Hopen. rewrite Get_unfold by done.
  destruct (chunkOfBlock_cases h (lookupBlock cs (nomsHashToCID h))) as [[chunk ->] | [msg ->]];
    simpl; eauto.
Qed.

Lemma Put_returns cs c cs1 :
  Put cs c = Ret cs1 ->
  rateLimit cs < rateLimitCap /\ ioErr (node cs) = None /\ cs1 = afterPut cs c.
Proof.
  intros HP. destruct (decide (rateLimit cs < rateLimitCap)) as [Hlt | Hge].
  - rewrite Put_unfold in HP by done.
    destruct (ioErr (node cs)) as [e |] eqn:Herr; [discriminate |].
    injection HP as <-. by repeat split.
  - rewrite Put_full in HP by lia. discriminate.
Qed.

(** X2: a call that returns has given back the token it took. [Get] and
    [Has] return the store they were called on, with the gate at the count
    it had before and [test] cleared: they change neither the node nor the
    cached root. [Put] changes the blockstore only. *)
Theorem calls_give_back_the_token (cs : chunkStore) (h : Hash) (c : Chunk) :
  (forall chunk cs', Get cs h = Ret (chunk, cs') -> cs' = released cs) /\
  (forall ok cs', Has cs h = Ret (ok, cs') -> cs' = released cs) /\
  (forall cs', Put cs c = Ret cs' ->
     rateLimit cs' = rateLimit cs /\ test cs' = false /\ root cs' = root cs /\
     name cs' = name cs /\ local cs' = local cs /\ Exchange (node cs') = Exchange (node cs)).
Proof.
  split; [| split].
  - intros chunk cs' HG.
    destruct (decide (rateLimit cs < rateLimitCap)) as [Hlt | Hge].
    + destruct (Get_open cs h Hlt) as [[chunk' E] | [msg E]]; congruence.
    + rewrite Get_full in HG by lia. discriminate.
  - intros ok cs' HH.
    destruct (decide ((if local cs then rateLimit cs else S (rateLimit cs)) < rateLimitCap))
      as [Hlt | Hge].
    + destruct (Has_open cs h Hlt) as [[ok' E] | [msg E]]; congruence.
    + rewrite Has_full in HH by lia. discriminate.
  - intros cs' HP. apply Put_returns in HP as (_ & _ & ->). by repeat split.
Qed.

(** X3: when a call has to wait at the gate. [Get] and [Put] take one token
    and wait exactly when all 1024 are taken. A non-local [Has] takes a token
    and then calls [Get], which takes a second one: it waits as soon as fewer
    than two tokens are free. A local [Has] needs one. *)
Theorem calls_wait_at_the_gate (cs : chunkStore) (h : Hash) (c : Chunk) :
  (Get cs h = Blocked <-> rateLimitCap <= rateLimit cs) /\
  (Put cs c = Blocked <-> rateLimitCap <= rateLimit cs) /\
  (Has cs h = Blocked <->
     rateLimitCap <= (if local cs then rateLimit cs else S (rateLimit cs))).
Proof.
  split; [| split]; (split; [| by (apply Get_full || apply Put_full || apply Has_full)]).
  - intros HB. destruct (decide (rateLimit cs < rateLimitCap)) as [Hlt | Hge]; [| lia].
    destruct (Get_open cs h Hlt) as [[chunk E] | [msg E]]; congruence.
  - intros HB. destruct (decide (rateLimit cs < rateLimitCap)) as [Hlt | Hge]; [| lia].
    rewrite Put_unfold in HB by done. destruct (ioErr (node cs)); discriminate.
  - intros HB.
    destruct (decide ((if local cs then rateLimit cs else S (rateLimit cs)) < rateLimitCap))
      as [Hlt | Hge]; [| lia].
    destruct (Has_open cs h Hlt) as [[ok E] | [msg E]]; congruence.
Qed.

(** X4: [Get] answers with the hash it was asked for or with the empty
    chunk, never with another chunk: a chunk it returns either carries the
    requested hash and the bytes the node holds under its CID, or is
    [chunks.EmptyChunk], and then the node has reported the block as not
    found. *)
Theorem Get_requested_or_empty (cs cs' : chunkStore) (h : Hash) (c : Chunk) :
  Get cs h = Ret (c, cs') ->
  (Chunk_Hash c = h /\ lookupBlock cs (nomsHashToCID h) = inl (Chunk_Data c)) \/
  (c = EmptyChunk /\ lookupBlock cs (nomsHashToCID h) = inr ErrNotFound).
Proof.
  intros HG. destruct (decide (rateLimit cs < rateLimitCap)) as [Hlt | Hge].
  - rewrite Get_unfold in HG by done.
    destruct (lookupBlock cs (nomsHashToCID h)) as [b | [| | msg]]; simpl in HG;
      try discriminate.
    + injection HG as <- _. by left.
    + injection HG as <- _. by right.
  - rewrite Get_full in HG by lia. discriminate.
Qed.

Lemma Get_requested_or_empty_witness :
  Get storeWithA hashA = Ret (chunkA, storeWithA) /\
  ((Chunk_Hash chunkA = hashA /\
    lookupBlock storeWithA (nomsHashToCID hashA) = inl (Chunk_Data chunkA)) \/
   (chunkA = EmptyChunk /\
    lookupBlock storeWithA (nomsHashToCID hashA) = inr ErrNotFound)).
Proof.
  assert (HG : Get storeWithA hashA = Ret (chunkA, storeWithA)) by reflexivity.
  split; [exact HG |].
  exact (Get_requested_or_empty storeWithA storeWithA hashA chunkA HG).
Defined.

(** ** Put *)

Lemma lookupBlock_afterPut cs c h :
  h <> Chunk_Hash c ->
  lookupBlock (afterPut cs c) (nomsHashToCID h) = lookupBlock cs (nomsHashToCID h).
Proof.
  intros Hne. unfold lookupBlock, Blockstore_Get, Blocks_GetBlock. simpl.
  rewrite lookup_insert_ne; [reflexivity |].
  intros E. apply nomsHashToCID_inj in E. congruence.
Qed.

(** X5: [Put] does not disturb the other chunks: after [Put(c)], [Get] of a
    hash other than [c.Hash()] gives what it gave before. *)
Theorem Put_keeps_other_chunks (cs cs1 : chunkStore) (c : Chunk) (h : Hash) :
  Put cs c = Ret cs1 ->
  h <> Chunk_Hash c ->
  Get cs1 h = obind (Get cs h) (fun r => Ret (fst r, cs1)).
Proof.
  intros HP Hne. apply Put_returns in HP as (Hgate & Herr & ->).
  rewrite (Get_unfold (afterPut cs c)) by (simpl; lia).
  rewrite (Get_unfold cs) by done.
  rewrite lookupBlock_afterPut by done.
  destruct (chunkOfBlock h _); reflexivity.
Qed.

Lemma Put_keeps_other_chunks_witness :
  Put localStore chunkA = Ret storeWithA /\
  hashB <> Chunk_Hash chunkA /\
  Get storeWithA hashB = Ret (EmptyChunk, storeWithA).
Proof.
  assert (HP : Put localStore chunkA = Ret storeWithA) by reflexivity.
  assert (Hne : hashB <> Chunk_Hash chunkA) by discriminate.
  split; [exact HP | split; [exact Hne |]].
  rewrite (Put_keeps_other_chunks localStore storeWithA chunkA hashB HP Hne).
  reflexivity.
Defined.

(** X6: [Put] is idempotent: putting a chunk a second time leaves the store
    as the first [Put] left it. *)
Theorem Put_twice (cs cs1 : chunkStore) (c : Chunk) :
  Put cs c = Ret cs1 -> Put cs1 c = Ret cs1.
Proof.
  intros HP. apply Put_returns in HP as (Hgate & Herr & ->).
  rewrite Put_unfold by (simpl; lia). simpl. rewrite Herr.
  unfold afterPut, released, withGate, withNode, withBlockstore. simpl.
  by rewrite insert_insert_eq.
Qed.

Lemma Put_twice_witness :
  Put localStore chunkA = Ret storeWithA /\ Put storeWithA chunkA = Ret storeWithA.
Proof.
  assert (HP : Put localStore chunkA = Ret storeWithA) by reflexivity.
  split; [exact HP | exact (Put_twice localStore storeWithA chunkA HP)].
Defined.

(** ** HasMany *)

(** X7: in local mode, on a healthy node, [HasMany] returns exactly the
    hashes of the request that the local blockstore does not hold, whatever
    the order in which the range yields them. *)
Theorem HasMany_local_misses (cs : chunkStore) (hashes misses : gset Hash) :
  local cs = true -> ioErr (node cs) = None -> rateLimit cs < rateLimitCap ->
  HasMany cs hashes misses <->
  misses = filter (fun h => Blockstore (node cs) !! nomsHashToCID h = None) hashes.
Proof.
  intros Hloc Herr Hgate. unfold HasMany. rewrite Hloc. split.
  - intros (order & cs' & Hperm & Hrun).
    destruct (HasMany_local_run order cs ∅ Hloc Herr Hgate) as (cs'' & Hrun' & _).
    rewrite Hrun in Hrun'. injection Hrun' as -> _.
    apply set_eq. intros h.
    rewrite elem_of_union, elem_of_list_to_set, elem_of_filter.
    unfold missing. rewrite list_elem_of_filter, Hperm, elem_of_elements.
    rewrite elem_of_empty. tauto.
  - intros ->. exists (elements hashes).
    destruct (HasMany_local_run (elements hashes) cs ∅ Hloc Herr Hgate) as (cs' & Hrun & _).
    exists cs'. split; [done |]. rewrite Hrun. f_equal. f_equal.
    apply set_eq. intros h.
    rewrite elem_of_union, elem_of_list_to_set, elem_of_filter.
    unfold missing. rewrite list_elem_of_filter, elem_of_elements.
    rewrite elem_of_empty. tauto.
Qed.

Lemma HasMany_local_misses_witness :
  local storeWithA = true /\
  HasMany storeWithA ({[hashA]} ∪ {[hashB]})
    (filter (fun h => Blockstore (node storeWithA) !! nomsHashToCID h = None)
            ({[hashA]} ∪ {[hashB]})).
Proof.
  split; [reflexivity |].
  assert (Hgate : rateLimit storeWithA < rateLimitCap) by (unfold rateLimitCap; simpl; lia).
  exact (proj2 (HasMany_local_misses storeWithA ({[hashA]} ∪ {[hashB]}) _
                  eq_refl eq_refl Hgate) eq_refl).
Defined.

Lemma Has_false_remote cs h cs' :
  local cs = false -> Has cs h = Ret (false, cs') ->
  forall b, Blocks_GetBlock (node cs) (nomsHashToCID h) = inl b -> b = [].
Proof.
  intros Hloc HH b Hb.
  destruct (decide (S (rateLimit cs) < rateLimitCap)) as [Hlt | Hge].
  - rewrite Has_unfold_remote in HH by done.
    unfold lookupBlock in HH. rewrite Hloc, Hb in HH. simpl in HH.
    injection HH as HE _. unfold IsEmpty in HE. simpl in HE.
    apply negb_false_iff, bool_decide_eq_true in HE. by destruct b.
  - rewrite Has_full in HH by (rewrite Hloc; lia). discriminate.
Qed.

Lemma hasManyWorker_returns cs h m m' cs' :
  local cs = false ->
  hasManyWorker cs h m = Ret (m', cs') ->
  node cs' = node cs /\ local cs' = false /\
  (m' = m \/
   (m' = {[h]} ∪ m /\
    forall b, Blocks_GetBlock (node cs) (nomsHashToCID h) = inl b -> b = [])).
Proof.
  intros Hloc HW. unfold hasManyWorker in HW.
  destruct (RateLimitAdd cs) as [cs1 | |] eqn:HA; try discriminate.
  assert (Hcs1 : node cs1 = node cs /\ local cs1 = false).
  { unfold RateLimitAdd in HA. destruct (decide _); [| discriminate].
    injection HA as <-. by split. }
  destruct Hcs1 as [Hn1 Hl1]. osimpl.
  destruct (Has cs1 h) as [[ok cs2] | |] eqn:HH; try discriminate.
  assert (Hcs2 : cs2 = released cs1).
  { destruct (decide (S (rateLimit cs1) < rateLimitCap)) as [Hlt | Hge].
    - destruct (Has_open cs1 h) as [[ok' E] | [msg E]];
        [by rewrite Hl1 | congruence | congruence].
    - rewrite Has_full in HH by (rewrite Hl1; lia). discriminate. }
  subst cs2.
  destruct (RateLimitSub (released cs1)) as [cs3 | |] eqn:HS; try discriminate.
  injection HW as <- <-.
  assert (Hcs3 : node cs3 = node cs1 /\ local cs3 = local cs1).
  { unfold RateLimitSub in HS. destruct (rateLimit (released cs1)); [discriminate |].
    injection HS as <-. by split. }
  destruct Hcs3 as [Hn3 Hl3].
  split; [congruence |]. split; [congruence |].
  destruct ok; [by left | right]. split; [done |].
  rewrite <- Hn1. by apply (Has_false_remote cs1 h (released cs1)).
Qed.

Lemma hmStep_inv hashes cs st st' :
  hmStep st st' -> hmInv hashes cs st -> hmInv hashes cs st'.
Proof.
  intros Hstep (Hit & Hh & Hn & Hl & Hm).
  destruct Hstep as [h rest x n m cs0 | it h n m cs0 m' cs' HW]; simpl in *.
  - unfold hmInv. simpl. split; [| split; [| split; [| split]]].
    + intros h' Hin. apply Hit. by apply list_elem_of_further.
    + intros h' [= <-]. apply Hit, list_elem_of_here.
    + exact Hn.
    + exact Hl.
    + exact Hm.
  - destruct (hasManyWorker_returns cs0 h m m' cs' Hl HW) as (Hn' & Hl' & Hm').
    unfold hmInv. simpl. split; [| split; [| split; [| split]]].
    + exact Hit.
    + exact Hh.
    + congruence.
    + exact Hl'.
    + intros h' Hin. destruct Hm' as [-> | [-> Hb]]; [by apply Hm |].
      apply elem_of_union in Hin as [Hin | Hin]; [| by apply Hm].
      apply elem_of_singleton in Hin as ->. split; [by apply Hh |].
      rewrite <- Hn. exact Hb.
Qed.

Lemma hmRun_inv hashes cs st st' :
  rtc hmStep st st' -> hmInv hashes cs st -> hmInv hashes cs st'.
Proof.
  induction 1 as [| st1 st2 st3 Hstep _ IH]; [done |].
  intros Hinv. apply IH. by apply (hmStep_inv hashes cs st1).
Qed.

Lemma HasMany_nonlocal_single :
  HasMany remoteStore {[hashA]} {[hashA]}.
Proof.
  unfold HasMany. simpl. exists [hashA].
  eexists {| hm_iter := []; hm_h := Some hashA; hm_pending := 0;
             hm_misses := {[hashA]}; hm_cs := _ |}.
  split; [by rewrite elements_singleton |]. split; [| done].
  eapply rtc_l; [apply hm_spawn |]. eapply rtc_l; [| apply rtc_refl].
  assert (Hw : hasManyWorker remoteStore hashA ∅
               = Ret ({[hashA]} ∪ ∅, released remoteStore)).
  { apply hasManyWorker_absent; [by split | done | unfold rateLimitCap; simpl; lia]. }
  rewrite (right_id_L ∅ (∪)) in Hw. apply hm_worker. exact Hw.
Qed.



(** ** GetMany *)

Lemma GetMany_local_found (n : IpfsNode) (order : list Hash) :
  ioErr n = None ->
  Forall (fun h => length h = ByteLen) order ->
  Forall (fun h => is_Some (Blockstore n !! nomsHashToCID h)) order ->
  exists found,
    GetMany_local n (map nomsHashToCID order) = Ret found /\
    map Chunk_Hash found = order /\
    Forall (fun ch => Blockstore n !! nomsHashToCID (Chunk_Hash ch) = Some (Chunk_Data ch)) found.
Proof.
  intros Herr Hlen Hall. induction order as [| h order IH].
  - exists []. by repeat split.
  - apply Forall_cons in Hlen as [Hh Hlen]. apply Forall_cons in Hall as [[b Hb] Hall].
    destruct (IH Hlen Hall) as (found & Hrun & Hhash & Hdata).
    exists (NewChunkWithHash h b :: found).
    cbn [map GetMany_local]. unfold Blockstore_Get. rewrite Herr, Hb, Hrun.
    change (cidToNomsHash (nomsHashToCID h)) with (copyIntoHash h).
    rewrite copyIntoHash_exact by done.
    split; [reflexivity |]. split; [cbn [map Chunk_Hash]; by rewrite Hhash |].
    apply Forall_cons. by split.
Qed.

Lemma GetMany_local_missing (n : IpfsNode) (order : list Hash) :
  ioErr n = None ->
  Exists (fun h => Blockstore n !! nomsHashToCID h = None) order ->
  GetMany_local n (map nomsHashToCID order) = Panic (errorText ErrNotFound).
Proof.
  intros Herr Hex. induction order as [| h order IH].
  - by apply Exists_nil in Hex.
  - simpl. unfold Blockstore_Get. rewrite Herr.
    destruct (Blockstore n !! nomsHashToCID h) as [b |] eqn:Hb; [| reflexivity].
    apply Exists_cons in Hex as [Hex | Hex]; [congruence |].
    simpl. rewrite (IH Hex). reflexivity.
Qed.



(** ** The root pointer *)

Section RootFacts.

Variable cid_String : Cid -> string.
Variable cid_Decode : string -> Cid + error.

Lemma Rebase_reads cs d :
  diskErr d = None ->
  Rebase cid_Decode cs d =
    match persistedRoot cs d with
    | None => Ret (withRoot cs (Some zeroHash))
    | Some sp =>
        if decide (sp = "") then Ret (withRoot cs (Some zeroHash))
        else obind (PanicIfError (cid_Decode sp))
                   (fun cid => Ret (withRoot cs (Some (cidToNomsHash cid))))
    end.
Proof.
  intros Hd. unfold Rebase, ReadFile, persistedRoot. rewrite Hd.
  destruct (files d !! _) as [sp |]; simpl.
  - destruct (decide (sp = "")); [reflexivity |].
    destruct (cid_Decode sp); reflexivity.
  - reflexivity.
Qed.

(** X10: a store whose root file does not exist, or exists and is empty, has
    the zero hash as root: [Rebase] caches it and [Root] on a store that has
    not loaded its root answers it. *)
Theorem Rebase_without_root_file (cs : chunkStore) (d : Disk) :
  diskErr d = None ->
  persistedRoot cs d = None \/ persistedRoot cs d = Some "" ->
  Rebase cid_Decode cs d = Ret (withRoot cs (Some zeroHash)) /\
  (root cs = None -> Root cid_Decode cs d = Ret (zeroHash, withRoot cs (Some zeroHash))).
Proof.
  intros Hd Hp.
  assert (HR : Rebase cid_Decode cs d = Ret (withRoot cs (Some zeroHash))).
  { rewrite Rebase_reads by done. destruct Hp as [-> | ->]; reflexivity. }
  split; [exact HR |].
  intros Hroot. unfold Root. rewrite Hroot, HR. reflexivity.
Qed.

(** X11: when [Rebase] fails. [Rebase] never waits; it panics exactly when
    reading the root file fails for another reason than the file not
    existing, or when the file holds a text that is not empty and that
    [cid.Decode] rejects. *)
Theorem Rebase_panics (cs : chunkStore) (d : Disk) :
  Rebase cid_Decode cs d <> Blocked /\
  (panics (Rebase cid_Decode cs d) = true <->
     is_Some (diskErr d) \/
     exists sp e, persistedRoot cs d = Some sp /\ sp <> "" /\ cid_Decode sp = inr e).
Proof.
  destruct (diskErr d) as [e |] eqn:Hd.
  - unfold Rebase, ReadFile. rewrite Hd. simpl. split; [discriminate |].
    split; [eauto | done].
  - rewrite Rebase_reads by done.
    destruct (persistedRoot cs d) as [sp |] eqn:Hp.
    + destruct (decide (sp = "")) as [Hsp | Hsp].
      * split; [discriminate |]. simpl. split; [discriminate |].
        intros [[x Hx] | (sp' & e & Hsp' & Hne & _)]; [discriminate | congruence].
      * destruct (cid_Decode sp) as [c | e] eqn:Hdec; simpl.
        -- split; [discriminate |]. split; [discriminate |].
           intros [[x Hx] | (sp' & e & Hsp' & Hne & Hdec')]; [discriminate | congruence].
        -- split; [discriminate |]. split; [| done].
           intros _. right. by exists sp, e.
    + split; [discriminate |]. simpl. split; [discriminate |].
      intros [[x Hx] | (sp' & e & Hsp' & _)]; discriminate.
Qed.

(** X12: [Root] reads the disk at most once. Once a root is cached, [Root]
    answers it whatever the root file holds by then; only [Rebase] looks at
    the file again. *)
Theorem Root_reads_the_disk_once (cs cs' : chunkStore) (d : Disk) (h : Hash) :
  Root cid_Decode cs d = Ret (h, cs') ->
  forall d', Root cid_Decode cs' d' = Ret (h, cs').
Proof.
  intros HR d'. apply Root_cached.
  unfold Root in HR.
  destruct (root cs) as [r |] eqn:Hroot.
  - simpl in HR. rewrite Hroot in HR. injection HR as <- <-. exact Hroot.
  - destruct (Rebase cid_Decode cs d) as [cs1 | |]; simpl in HR; try discriminate.
    destruct (root cs1) as [r |] eqn:Hroot1; [| discriminate].
    injection HR as <- <-. exact Hroot1.
Qed.

Lemma committedFiles_shared cs d s :
  committedFiles cs d s !! getLocalNameFile cs false = Some s.
Proof. unfold committedFiles. apply lookup_insert_eq. Qed.

Lemma getLocalNameFile_name cs cs2 b :
  name cs2 = name cs -> getLocalNameFile cs2 b = getLocalNameFile cs b.
Proof. intros Hn. unfold getLocalNameFile. by rewrite Hn. Qed.

(** X13: a committed root is what a store opened on the same directory
    loads. After [Commit(current, last)] has written the root files,
    [Rebase] on a store of the same directory caches [current], provided the
    store reads a file the commit wrote: any store after a local commit, a
    non-local store after a non-local commit. [cid.Decode] is assumed to read
    back the text [cid.String] gives for the CID of [current]. *)
Theorem Commit_then_Rebase (cs cs2 : chunkStore) (d : Disk) (current last : Hash) :
  cid_Decode (cid_String (nomsHashToCID current)) = inl (nomsHashToCID current) ->
  cid_String (nomsHashToCID current) <> "" ->
  length current = ByteLen ->
  root cs <> Some current ->
  diskErr d = None ->
  name cs2 = name cs ->
  local cs = true \/ local cs2 = false ->
  exists cs' d',
    Commit cid_String cs d current last = Ret (true, cs', d') /\
    Rebase cid_Decode cs2 d' = Ret (withRoot cs2 (Some current)).
Proof.
  intros Hdec Hne Hlen Hroot Hd Hname Hmode.
  rewrite Commit_writes by done. rewrite Hd.
  eexists _, _. split; [reflexivity |].
  rewrite Rebase_reads by done. unfold persistedRoot. simpl.
  rewrite (getLocalNameFile_name cs cs2) by done.
  assert (Hfile : committedFiles cs d (cid_String (nomsHashToCID current))
                    !! getLocalNameFile cs (local cs2)
                  = Some (cid_String (nomsHashToCID current))).
  { destruct (local cs2) eqn:Hl2.
    - destruct Hmode as [Hl | Hl]; [| discriminate].
      rewrite <- Hl. apply committedFiles_own.
    - apply committedFiles_shared. }
  rewrite Hfile. rewrite decide_False by done. rewrite Hdec. simpl.
  unfold cidToNomsHash. simpl. by rewrite copyIntoHash_exact.
Qed.

(** X14: a non-local commit never touches ["noms-local"]: whatever a
    non-local store commits, a local store on the same directory loads the
    same root as before. *)
Theorem nonlocal_Commit_hidden_from_local (cs cs' cs2 : chunkStore) (d d' : Disk)
    (current last : Hash) (ok : bool) :
  local cs = false ->
  Commit cid_String cs d current last = Ret (ok, cs', d') ->
  local cs2 = true ->
  name cs2 = name cs ->
  Rebase cid_Decode cs2 d' = Rebase cid_Decode cs2 d.
Proof.
  intros Hl HC Hl2 Hname.
  destruct (decide (root cs = Some current)) as [Hr | Hr].
  - rewrite Commit_cached in HC by done. by injection HC as _ _ <-.
  - rewrite Commit_writes in HC by done.
    destruct (diskErr d) as [e |] eqn:Hd; [discriminate |].
    injection HC as _ _ <-.
    unfold Rebase, ReadFile. simpl. rewrite Hd, Hl2.
    unfold committedFiles. rewrite Hl.
    rewrite (getLocalNameFile_name cs cs2) by done.
    rewrite lookup_insert_ne by (apply not_eq_sym, getLocalNameFile_distinct).
    reflexivity.
Qed.

End RootFacts.

Lemma Rebase_without_root_file_witness :
  Rebase cid_Decode_hashA localStore diskA = Ret (withRoot localStore (Some zeroHash)).
Proof.
  refine (proj1 (Rebase_without_root_file cid_Decode_hashA localStore diskA eq_refl _)).
  left. reflexivity.
Defined.

Lemma Root_reads_the_disk_once_witness :
  Root cid_Decode_hashA remoteStore diskA = Ret (hashA, withRoot remoteStore (Some hashA)) /\
  Root cid_Decode_hashA (withRoot remoteStore (Some hashA))
       {| files := ∅; diskErr := Some "gone" |}
    = Ret (hashA, withRoot remoteStore (Some hashA)).
Proof.
  assert (HR : Root cid_Decode_hashA remoteStore diskA
               = Ret (hashA, withRoot remoteStore (Some hashA))) by reflexivity.
  split; [exact HR |].
  exact (Root_reads_the_disk_once cid_Decode_hashA remoteStore _ diskA hashA HR _).
Defined.

Lemma Commit_then_Rebase_witness :
  exists cs' d',
    Commit cid_String_base16 localStore diskA hashA hashB = Ret (true, cs', d') /\
    Rebase cid_Decode_hashA remoteStore d' = Ret (withRoot remoteStore (Some hashA)).
Proof.
  apply (Commit_then_Rebase cid_String_base16 cid_Decode_hashA localStore remoteStore
           diskA hashA hashB); try reflexivity; try discriminate.
  by left.
Defined.

Lemma nonlocal_Commit_hidden_from_local_witness :
  Rebase cid_Decode_hashA localStore
    {| files := committedFiles remoteStore diskA (cid_String_base16 (nomsHashToCID hashB));
       diskErr := None |}
  = Rebase cid_Decode_hashA localStore diskA.
Proof.
  apply (nonlocal_Commit_hidden_from_local cid_String_base16 cid_Decode_hashA
           remoteStore (withRoot remoteStore (Some hashB)) localStore diskA _
           hashB hashA true); reflexivity.
Defined.

(** ** The ports of the repo configuration *)

Lemma string_length_app (s1 s2 : string) :
  String.length (s1 ++ s2) = String.length s1 + String.length s2.
Proof. induction s1 as [| c s1 IH]; simpl; [done | by rewrite IH]. Qed.

Lemma prefix_length (old s : string) :
  String.prefix old s = true -> String.length old <= String.length s.
Proof.
  revert s. induction old as [| c old IH]; intros s Hp; simpl; [lia |].
  destruct s as [| c' s]; simpl in *; [discriminate |].
  destruct (Ascii.ascii_dec c c'); [| discriminate].
  apply IH in Hp. lia.
Qed.

Lemma replaceFrom_length (old new : string) :
  String.length new = String.length old -> old <> "" ->
  forall (s : string) (skip : nat),
    skip <= String.length s ->
    String.length (replaceFrom old new skip s) = String.length s - skip.
Proof.
  intros Hlen Hne. induction s as [| c rest IH]; intros skip Hskip.
  - simpl in *. lia.
  - destruct skip as [| k].
    + cbn [replaceFrom]. destruct (String.prefix old (String c rest)) eqn:Hp.
      * apply prefix_length in Hp. simpl in Hp.
        assert (0 < String.length old) by (destruct old; simpl; [done | lia]).
        rewrite string_length_app, IH by lia. simpl. lia.
      * simpl. rewrite IH by lia. lia.
    + cbn [replaceFrom]. simpl in Hskip. rewrite IH by lia. reflexivity.
Qed.

Lemma strings_Replace_length (s old new : string) :
  String.length new = String.length old -> old <> "" ->
  String.length (strings_Replace s old new) = String.length s.
Proof.
  intros Hlen Hne. unfold strings_Replace.
  rewrite replaceFrom_length by (done || lia). lia.
Qed.

Lemma Sprintf_d_length (pre : string) (n : Z) :
  (0 <= n <= 9)%Z -> String.length (Sprintf_d pre n) = String.length pre + 1.
Proof.
  intros Hn. unfold Sprintf_d. rewrite string_length_app. f_equal.
  replace n with (Z.of_nat (Z.to_nat n)) by lia.
  assert (Hk : Z.to_nat n < 10) by lia. revert Hk.
  generalize (Z.to_nat n) as k. intros k Hk.
  do 10 (destruct k as [| k]; [reflexivity |]). lia.
Qed.

Lemma prefix_app (old post : string) : String.prefix old (old ++ post) = true.
Proof.
  induction old as [| c old IH]; simpl; [by destruct post |].
  by destruct (Ascii.ascii_dec c c).
Qed.

Lemma replaceFrom_skip (old new x post : string) :
  replaceFrom old new (String.length x) (x ++ post) = replaceFrom old new 0 post.
Proof. induction x as [| c x IH]; simpl; [by destruct post | exact IH]. Qed.

Lemma string_app_nil_r (s : string) : s ++ "" = s.
Proof.
  induction s as [| c s IH]; [done |].
  change (String c (s ++ "") = String c s). by f_equal.
Qed.

Lemma replaceFrom_first (old new post : string) :
  old <> "" ->
  forall pre : string,
    firstOccurrence old (pre ++ old ++ post) = Some (String.length pre) ->
    replaceFrom old new 0 (pre ++ old ++ post) = pre ++ new ++ replaceFrom old new 0 post.
Proof.
  intros Hne. induction pre as [| c pre IH]; intros Hfirst.
  - destruct old as [| c old]; [done |].
    change ("" ++ String c old ++ post) with (String c (old ++ post)).
    cbn [replaceFrom].
    change (String c (old ++ post)) with (String c old ++ post) at 1.
    rewrite prefix_app.
    replace (String.length (String c old) - 1) with (String.length old) by (simpl; lia).
    by rewrite replaceFrom_skip.
  - change (String c pre ++ old ++ post) with (String c (pre ++ old ++ post)) in *.
    cbn [firstOccurrence replaceFrom] in *.
    destruct (String.prefix old (String c (pre ++ old ++ post))); [discriminate |].
    destruct (firstOccurrence old (pre ++ old ++ post)) as [k |] eqn:Hk; [| discriminate].
    simpl in Hfirst. injection Hfirst as ->.
    rewrite IH by done. reflexivity.
Qed.

Lemma strings_Replace_port (pre port new addr : string) :
  port <> "" -> portAddress pre port addr -> strings_Replace addr port new = pre ++ new.
Proof.
  intros Hne [-> Hfirst]. unfold strings_Replace.
  assert (E : pre ++ port = pre ++ port ++ "") by (by rewrite string_app_nil_r).
  rewrite E in Hfirst |- *.
  rewrite (replaceFrom_first port new "" Hne pre) by done.
  simpl. by rewrite string_app_nil_r.
Qed.

(** X15: [resetRepoConfigPorts] rewrites port numbers in place. A node index
    outside 0..9 leaves the repo as it is, without reading its
    configuration; for an index within 0..9 the new port texts have the
    four characters of the old ones, so that every address keeps its length
    and the list of swarm addresses its size. *)
Theorem resetRepoConfigPorts_keeps_lengths (r r' : Repo) (nodeIdx : Z) :
  resetRepoConfigPorts r nodeIdx = Ret r' ->
  ((nodeIdx < 0 \/ 9 < nodeIdx)%Z -> r' = r) /\
  String.length (API (repoConfig r')) = String.length (API (repoConfig r)) /\
  String.length (Gateway (repoConfig r')) = String.length (Gateway (repoConfig r)) /\
  map String.length (Swarm (repoConfig r')) = map String.length (Swarm (repoConfig r)).
Proof.
  unfold resetRepoConfigPorts. intros HR.
  destruct (decide (nodeIdx < 0 \/ nodeIdx > 9)%Z) as [Hout | Hin].
  - injection HR as <-. by repeat split.
  - split; [lia |].
    unfold CheckError, Repo_Config, Repo_SetConfig in HR.
    destruct (repoErr r) as [e |]; [discriminate |]. simpl in HR.
    injection HR as <-. simpl.
    assert (Hrange : (0 <= nodeIdx <= 9)%Z) by lia.
    repeat split.
    + apply strings_Replace_length; [by rewrite Sprintf_d_length | discriminate].
    + apply strings_Replace_length; [by rewrite Sprintf_d_length | discriminate].
    + rewrite map_map. apply map_ext. intros addr.
      apply strings_Replace_length; [by rewrite Sprintf_d_length | discriminate].
Qed.

Lemma resetRepoConfigPorts_keeps_lengths_witness :
  resetRepoConfigPorts repoDefault 3
    = Ret {| repoConfig := {| API := "/ip4/127.0.0.1/tcp/5003";
                              Gateway := "/ip4/127.0.0.1/tcp/8083";
                              Swarm := ["/ip4/0.0.0.0/tcp/4003"; "/ip6/::/tcp/4003"] |};
             repoErr := None |} /\
  String.length "/ip4/127.0.0.1/tcp/5003" = String.length (API (repoConfig repoDefault)).
Proof.
  assert (HR : resetRepoConfigPorts repoDefault 3
    = Ret {| repoConfig := {| API := "/ip4/127.0.0.1/tcp/5003";
                              Gateway := "/ip4/127.0.0.1/tcp/8083";
                              Swarm := ["/ip4/0.0.0.0/tcp/4003"; "/ip6/::/tcp/4003"] |};
             repoErr := None |}) by reflexivity.
  split; [exact HR |].
  exact (proj1 (proj2 (resetRepoConfigPorts_keeps_lengths repoDefault _ 3 HR))).
Defined.

(** X16: for a node index [d] within 0..9 and a repo that can be read and
    written, [resetRepoConfigPorts] makes the ports end in [d]: an API
    address that ends in 5001 ends in 500[d] afterwards, a gateway address
    that ends in 8080 in 808[d], every swarm address that ends in 4001 in
    400[d], what comes before the port being kept (the port text occurring
    nowhere before in the address). *)
Theorem resetRepoConfigPorts_sets_ports (r : Repo) (nodeIdx : Z) (preA preG : string) :
  (0 <= nodeIdx <= 9)%Z ->
  repoErr r = None ->
  portAddress preA "5001" (API (repoConfig r)) ->
  portAddress preG "8080" (Gateway (repoConfig r)) ->
  Forall (fun addr => exists pre, portAddress pre "4001" addr) (Swarm (repoConfig r)) ->
  exists r',
    resetRepoConfigPorts r nodeIdx = Ret r' /\
    API (repoConfig r') = preA ++ Sprintf_d "500" nodeIdx /\
    Gateway (repoConfig r') = preG ++ Sprintf_d "808" nodeIdx /\
    Forall2 (fun addr addr' => exists pre,
               addr = pre ++ "4001" /\ addr' = pre ++ Sprintf_d "400" nodeIdx)
            (Swarm (repoConfig r)) (Swarm (repoConfig r')).
Proof.
  intros Hrange Herr HA HG HS. unfold resetRepoConfigPorts.
  rewrite decide_False by lia.
  unfold CheckError, Repo_Config, Repo_SetConfig. rewrite Herr. simpl.
  eexists. split; [reflexivity |]. simpl.
  split; [by apply strings_Replace_port |].
  split; [by apply strings_Replace_port |].
  induction HS as [| addr rest [pre Hp] _ IH]; simpl; constructor; [| exact IH].
  exists pre. split; [by destruct Hp | by apply strings_Replace_port].
Qed.

Lemma resetRepoConfigPorts_sets_ports_witness :
  exists r',
    resetRepoConfigPorts repoDefault 3 = Ret r' /\
    API (repoConfig r') = "/ip4/127.0.0.1/tcp/5003" /\
    Gateway (repoConfig r') = "/ip4/127.0.0.1/tcp/8083".
Proof.
  destruct (resetRepoConfigPorts_sets_ports repoDefault 3
              "/ip4/127.0.0.1/tcp/" "/ip4/127.0.0.1/tcp/")
    as (r' & HR & HA & HG & _).
  - lia.
  - reflexivity.
  - by split.
  - by split.
  - repeat constructor.
    + exists "/ip4/0.0.0.0/tcp/". by split.
    + exists "/ip6/::/tcp/". by split.
  - exists r'. split; [exact HR |]. split; [exact HA | exact HG].
Defined.

End ChunkStoreMore.

(** * Further facts about sets *)

Module SetMore.
Import types SetSpec SetProofs.

Local Open Scope list_scope.

(** ** The leaf chunk function *)

Section LeafChunks.

Context {V : Type} `{Value V} {ValueReadWriter : Type}.

Lemma checkAscending_cases (items : list V) : forall lastValue : option V,
  (Sorted lt (match lastValue with Some x => x :: items | None => items end) ->
     checkAscending lastValue items = Ret tt) /\
  (~ Sorted lt (match lastValue with Some x => x :: items | None => items end) ->
     panics (checkAscending lastValue items) = true).
Proof.
  induction items as [| v rest IH]; intros lastValue.
  - split; [reflexivity |]. intros Hn. destruct Hn.
    destruct lastValue; repeat constructor.
  - cbn [checkAscending]. destruct lastValue as [l |].
    + destruct (Less l v) eqn:Hlv; simpl.
      * destruct (IH (Some v)) as [Hok Hbad]. split.
        -- intros Hs. apply Hok. by apply Sorted_inv in Hs as [Hs _].
        -- intros Hn. apply Hbad. intros Hs. apply Hn.
           constructor; [done | by constructor].
      * split; [| reflexivity].
        intros Hs. apply Sorted_inv in Hs as [_ Hhd]. apply HdRel_inv in Hhd.
        unfold lt in Hhd. congruence.
    + simpl. apply (IH (Some v)).
Qed.

(** X17: the leaf chunk function of sets returns exactly when it is called
    for level 0 with items each greater than the one before, and then wraps
    the items, unchanged, into a leaf with the last item as key and their
    number as count; in every other case it panics. *)
Theorem makeSetLeafChunkFn_cases (vrw : option ValueReadWriter) (level : N) (items : list V) :
  (level = 0%N /\ Sorted lt items ->
     makeSetLeafChunkFn vrw level items
     = Ret (newSet (leafSeq (newSetLeafSequence items)), lastKey items,
            N.of_nat (length items))) /\
  (level <> 0%N \/ ~ Sorted lt items ->
     panics (makeSetLeafChunkFn vrw level items) = true).
Proof.
  unfold makeSetLeafChunkFn. split.
  - intros [-> Hs]. simpl.
    by rewrite (proj1 (checkAscending_cases items None) Hs).
  - intros Hbad. destruct (level =? 0)%N eqn:Hl; simpl; [| reflexivity].
    apply N.eqb_eq in Hl. destruct Hbad as [Hne | Hn]; [done |].
    pose proof (proj2 (checkAscending_cases items None) Hn) as Hp.
    destruct (checkAscending None items); simpl in *; congruence.
Qed.

End LeafChunks.

Section MoreFacts.

Context {V : Type} `{ValueLaws V} `{Boundary V} {ValueReadWriter : Type}.

#[local] Abbreviation Set_ := (@types.Set_ V).
#[local] Abbreviation metaTuple := (@types.metaTuple V).

(** ** buildSetData *)

#[local] Instance lt_antisymm : AntiSymm (=) (lt (V := V)).
Proof.
  intros a b Hab Hba. apply lt_asym in Hab. unfold le, lt in *. congruence.
Qed.

Lemma sorted_same_elements (l1 l2 : list V) :
  StronglySorted lt l1 -> StronglySorted lt l2 ->
  (forall v, v ∈ l1 <-> v ∈ l2) -> l1 = l2.
Proof.
  intros Hs1 Hs2 Hel. apply (StronglySorted_unique lt); [done | done |].
  apply NoDup_Permutation; [by apply strongly_lt_NoDup | by apply strongly_lt_NoDup | done].
Qed.

Lemma buildSetData_same (S S' : list V) :
  (forall v, v ∈ S <-> v ∈ S') -> buildSetData S = buildSetData S'.
Proof.
  intros Hel.
  destruct (buildSetData_spec S) as [Hel1 Hs1].
  destruct (buildSetData_spec S') as [Hel2 Hs2].
  apply sorted_same_elements; [done | done |].
  intros v. by rewrite Hel1, Hel2.
Qed.

Lemma buildSetData_sorted (S : list V) : StronglySorted lt S -> buildSetData S = S.
Proof.
  intros Hs. destruct (buildSetData_spec S) as [Hel Hs'].
  by apply sorted_same_elements.
Qed.

Lemma buildSetData_submseteq (S : list V) : buildSetData S ⊆+ S.
Proof.
  destruct (buildSetData_spec S) as [Hel Hs].
  apply NoDup_submseteq; [by apply strongly_lt_NoDup |].
  intros v. by rewrite Hel.
Qed.

Lemma buildSetData_nil (S : list V) : buildSetData S = [] <-> S = [].
Proof.
  split; [| by intros ->].
  intros Hb. destruct S as [| v S]; [done |].
  destruct (buildSetData_spec (v :: S)) as [Hel _].
  assert (Hin : v ∈ buildSetData (v :: S)) by (apply Hel, list_elem_of_here).
  rewrite Hb in Hin. by apply elem_of_nil in Hin.
Qed.

(** X18: the set built depends on which values are given and on nothing
    else: two argument lists with the same elements, in whatever order and
    with whatever repetitions, give the same item list and the same set. *)
Theorem NewSet_canonical (vrw : option ValueReadWriter) (S S' : list V) :
  (forall v, v ∈ S <-> v ∈ S') ->
  buildSetData S = buildSetData S' /\ NewSet vrw S = NewSet vrw S'.
Proof.
  intros Hel. pose proof (buildSetData_same S S' Hel) as Hb.
  split; [exact Hb |]. unfold NewSet. by rewrite Hb.
Qed.

(** X19: [buildSetData] leaves a slice that is already strictly increasing
    as it is, and applying it to its own result changes nothing. *)
Theorem buildSetData_fixes_sorted (S : list V) :
  (StronglySorted lt S -> buildSetData S = S) /\
  buildSetData (buildSetData S) = buildSetData S.
Proof.
  split; [apply buildSetData_sorted |].
  apply buildSetData_sorted. by destruct (buildSetData_spec S).
Qed.

(** X20: [buildSetData] never returns more values than it was given, and
    returns as many exactly when no value was given twice. *)
Theorem buildSetData_length (S : list V) :
  length (buildSetData S) <= length S /\
  (length (buildSetData S) = length S <-> NoDup S).
Proof.
  pose proof (buildSetData_submseteq S) as Hsub.
  destruct (buildSetData_spec S) as [Hel Hs].
  split; [by apply submseteq_length |]. split.
  - intros Hlen. apply submseteq_length_Permutation in Hsub; [| lia].
    rewrite <- Hsub. by apply strongly_lt_NoDup.
  - intros Hnd. apply Permutation_length.
    apply NoDup_Permutation; [by apply strongly_lt_NoDup | done | done].
Qed.

(** ** NewStreamingSet *)

(** X21: on a stream of values each greater than the one before,
    [NewStreamingSet] gives the very set [NewSet] builds from the same
    values. *)
Theorem NewStreamingSet_agrees_with_NewSet (vrw : option ValueReadWriter)
    (values : list V) :
  StronglySorted lt values ->
  vrw <> None ->
  NewStreamingSet vrw (Some <$> values) = NewSet vrw values.
Proof.
  intros Hs Hvrw. unfold NewStreamingSet, newStreamingSet.
  destruct vrw as [w |]; [| done]. simpl.
  unfold readSetInput, NewSet.
  rewrite readSetInput_loop_appendAll by (by apply (sorted_inOrder values None)).
  by rewrite buildSetData_sorted.
Qed.

(** ** Len and Empty *)


(** ** At, Has and First *)

Lemma sorted_lookup_lt (l : list V) : forall (i j : nat) (a b : V),
  StronglySorted lt l -> l !! i = Some a -> l !! j = Some b -> i < j -> lt a b.
Proof.
  induction l as [| x l IH]; intros i j a b Hs Hi Hj Hij; [done |].
  apply StronglySorted_inv in Hs as [Hs Hall].
  destruct j as [| j]; [lia |]. simpl in Hj.
  destruct i as [| i]; simpl in Hi.
  - injection Hi as <-. rewrite list.Forall_forall in Hall.
    apply Hall. by apply (list_elem_of_lookup_2 l j).
  - apply (IH i j); [done | done | done | lia].
Qed.

Lemma At_lookup (s : Set_) (idx : N) (v : V) :
  wfSeq (seq s) -> At s idx = Ret v -> members s !! N.to_nat idx = Some v.
Proof.
  intros Hwf HA. unfold At in HA.
  destruct (Len s <=? idx)%N; [discriminate |].
  rewrite newCursorAtIndex_lookup in HA by done.
  destruct (members s !! N.to_nat idx); [congruence | discriminate].
Qed.

Lemma lookup_At (s : Set_) (k : nat) (v : V) :
  wfSeq (seq s) -> members s !! k = Some v -> At s (N.of_nat k) = Ret v.
Proof.
  intros Hwf Hk. unfold At. rewrite Len_members by done.
  apply lookup_lt_Some in Hk as Hlt.
  replace (N.of_nat (length (members s)) <=? N.of_nat k)%N with false
    by (symmetry; apply N.leb_gt; lia).
  rewrite newCursorAtIndex_lookup by done. by rewrite Nat2N.id, Hk.
Qed.


Lemma First_unfold (s : Set_) :
  First s = Ret (head (cur_leaf (newCursorAtStart (seq s)))).
Proof.
  unfold First, valid, current.
  change (cur_idx (newCursorAtStart (seq s))) with 0.
  by destruct (cur_leaf (newCursorAtStart (seq s))).
Qed.

Lemma newCursorAtStart_head (s : Set_) :
  wfSeq (seq s) ->
  head (cur_leaf (newCursorAtStart (seq s))) = head (members s).
Proof.
  intros [_ Hwf]. rewrite members_leaves. unfold newCursorAtStart.
  destruct (seq s) as [l | ts]; simpl.
  - by rewrite app_nil_r.
  - destruct ts as [| t ts]; simpl; [done |].
    apply Forall_cons in Hwf as [(Hne & _ & _) _].
    by destruct (leafData (mt_child t)).
Qed.


(** ** Iter *)

Lemma iterItems_app {St : Type} (cb : V -> St -> bool * St) (l1 l2 : list V) : forall st,
  iterItems cb (l1 ++ l2) st
  = (let '(stop, st1) := iterItems cb l1 st in
     if stop then (true, st1) else iterItems cb l2 st1).
Proof.
  induction l1 as [| v l1 IH]; intros st; simpl; [done |].
  destruct (cb v st) as [[|] st1]; [done | apply IH].
Qed.

Lemma iterLeaves_flat {St : Type} (cb : V -> St -> bool * St) (ls : list (list V)) :
  forall st, iterLeaves cb ls st = snd (iterItems cb (concat ls) st).
Proof.
  induction ls as [| l ls IH]; intros st; simpl; [done |].
  rewrite iterItems_app. destruct (iterItems cb l st) as [[|] st1]; [done | apply IH].
Qed.

(** X25: [Iter] runs its callback on the values [IterAll] visits, in the
    same order, and stops after the first call that returns true; how the
    values are divided into chunks makes no difference. In particular a
    callback that stops at once sees the first value only. *)
Theorem Iter_in_order (St : Type) (s : Set_) (cb : V -> St -> bool * St) (st : St) :
  Iter s cb st = snd (iterItems cb (members s) st) /\
  (forall v rest, members s = v :: rest -> fst (cb v st) = true ->
     Iter s cb st = snd (cb v st)).
Proof.
  assert (HI : Iter s cb st = snd (iterItems cb (members s) st)).
  { unfold Iter. rewrite members_leaves. apply iterLeaves_flat. }
  split; [exact HI |]. intros v rest Hm Hstop. rewrite HI, Hm. simpl.
  destruct (cb v st) as [stop st1]. simpl in *. by rewrite Hstop.
Qed.

End MoreFacts.

Lemma NewSet_canonical_witness :
  buildSetData [3; 1; 2; 3]%Z = buildSetData [1; 2; 3]%Z /\
  NewSet (Some tt) [3; 1; 2; 3]%Z = NewSet (Some tt) [1; 2; 3]%Z.
Proof.
  apply (NewSet_canonical (Some tt) [3; 1; 2; 3]%Z [1; 2; 3]%Z).
  intros v. rewrite !elem_of_cons, elem_of_nil. tauto.
Defined.

Lemma buildSetData_fixes_sorted_witness :
  buildSetData [1; 2; 4]%Z = [1; 2; 4]%Z /\
  buildSetData (buildSetData [3; 1; 3]%Z) = buildSetData [3; 1; 3]%Z.
Proof.
  split.
  - apply (proj1 (buildSetData_fixes_sorted [1; 2; 4]%Z)). repeat constructor.
  - exact (proj2 (buildSetData_fixes_sorted [3; 1; 3]%Z)).
Defined.

Lemma buildSetData_length_witness :
  length (buildSetData [3; 1; 3]%Z) <= length [3; 1; 3]%Z /\
  length (buildSetData [3; 1; 2]%Z) = length [3; 1; 2]%Z.
Proof.
  split.
  - exact (proj1 (buildSetData_length [3; 1; 3]%Z)).
  - apply (proj2 (proj2 (buildSetData_length [3; 1; 2]%Z))).
    repeat constructor; rewrite ?elem_of_cons, ?elem_of_nil; intros Hin;
      repeat destruct Hin as [Hin | Hin]; done.
Defined.

Lemma NewStreamingSet_agrees_with_NewSet_witness :
  NewStreamingSet (Some tt) (Some <$> [1; 2; 4]%Z) = NewSet (Some tt) [1; 2; 4]%Z.
Proof.
  apply (NewStreamingSet_agrees_with_NewSet (Some tt) [1; 2; 4]%Z).
  - repeat constructor.
  - discriminate.
Defined.




End SetMore.

(** * Facts about the code generator *)

Module CodegenFacts.
Import codegen.

Lemma string_length_append (s1 s2 : string) :
  String.length (s1 ++ s2) = String.length s1 + String.length s2.
Proof. induction s1 as [| c s1 IH]; simpl; [done | by rewrite IH]. Qed.

Lemma substring_prefix (base rest : string) :
  substring 0 (String.length base) (base ++ rest) = base.
Proof.
  induction base as [| c base IH]; simpl; [by destruct rest | by rewrite IH].
Qed.

(** X26: [getOutFileName] turns the name of a .noms file into the name with
    the extension [.go] in its place; on a name shorter than the extension,
    as the flag [-in] can give it, the slice expression panics. *)
Theorem getOutFileName_swaps_extension :
  (forall base, getOutFileName (base ++ ext) = Ret (base ++ ".go")) /\
  (forall in_, panics (getOutFileName in_) = true
               <-> String.length in_ < String.length ext).
Proof.
  split.
  - intros base. unfold getOutFileName. rewrite string_length_append.
    replace (String.length base + String.length ext <? String.length ext)%nat with false
      by (symmetry; apply Nat.ltb_ge; lia).
    replace (String.length base + String.length ext - String.length ext)
      with (String.length base) by lia.
    by rewrite substring_prefix.
  - intros in_. unfold getOutFileName.
    destruct (String.length in_ <? String.length ext)%nat eqn:E; cbn [panics].
    + apply Nat.ltb_lt in E. by split.
    + apply Nat.ltb_ge in E. split; [discriminate | lia].
Qed.

(** X27: [kindToString] gives different names to different kinds, and has
    no name for an enum, for a struct and for a kind the file does not
    mention: on these it panics. *)
Theorem kindToString_names_distinct :
  (forall k1 k2 s, kindToString k1 = Ret s -> kindToString k2 = Ret s -> k1 = k2) /\
  (forall k, panics (kindToString k) = true
             <-> k = EnumKind \/ k = StructKind \/ exists n, k = otherKind n).
Proof.
  split.
  - intros k1 k2 s H1 H2.
    destruct k1; simpl in H1; try discriminate; injection H1 as <-;
      destruct k2; simpl in H2; try discriminate; reflexivity.
  - intros k. split.
    + destruct k; simpl; try discriminate; eauto.
    + intros [-> | [-> | [n ->]]]; reflexivity.
Qed.

End CodegenFacts.
